(** * GitHub stats generator: streaks, language shares, rank and cards

    A shallow embedding of [scripts/generate_stats.py] and the properties
    its specification states about it.

    Conventions of the embedding.
    - A calendar date is its proleptic Gregorian ordinal (Python's
      [date.toordinal()]), an integer.  The script carries dates as
      zero-padded ISO strings ("%Y-%m-%d"), whose lexicographic order is the
      order of the ordinals; [strptime] and [strftime] convert back and
      forth, and [timedelta(days=1)] is [+ 1].
    - Python integers are [Z].  A Python float is a binary64 value; it is
      modelled by the rational number it denotes, and every float operation
      returns its exact result rounded to binary64 by [fl] (53 significant
      bits, ties to the even significand, gradual underflow).  Negative
      zero is identified with zero.  Results beyond the largest finite
      float, where Python raises [OverflowError] or continues with [inf],
      are outside the model: [fl] rounds them as if the exponent range had
      no upper end.
    - The system clock, read by [datetime.now()], is the one ambient input
      of the functions embedded here; it is passed explicitly as [env].
    - A dict used as a lookup table is a [gmap]; a dict whose iteration
      order matters is an association list in insertion order; a Python
      set is a [gset]. *)

From Stdlib Require Import ZArith QArith Qround Qfield Qpower Lia Lqa Ascii String.
From stdpp Require Import base decidable option list sorting gmap strings pretty.

Local Open Scope Z_scope.

(** ** Ambient environment *)

Record env := Env {
  today : Z  (* datetime.now().date() *)
}.

(** ** Python built-ins used by the script *)

(** [sum(xs)]: a left fold from 0. *)
Definition py_sum (xs : list Z) : Z := fold_left Z.add xs 0.

(** [sorted(xs, key=key)]: a stable sort, ascending by key.  The first of
    two elements with equal keys stays first. *)
Fixpoint insert_by {A} (key : A → Z) (x : A) (l : list A) : list A :=
  match l with
  | [] => [x]
  | y :: l' => if decide (key x ≤ key y) then x :: y :: l'
               else y :: insert_by key x l'
  end.

Fixpoint sorted {A} (key : A → Z) (l : list A) : list A :=
  match l with
  | [] => []
  | x :: l' => insert_by key x (sorted key l')
  end.

(** ** Python floats

    A finite binary64 value is modelled by the rational number it denotes.
    Every float operation returns the exact result rounded to binary64 by
    [fl]: to 53 significant bits, ties to the even significand, with
    gradual underflow below 2^-1022. *)

(** [round(x)] to the nearest integer, ties to the even one. *)
Definition round_half_even (x : Q) : Z :=
  let f := Qfloor x in
  match Qcompare (x - inject_Z f) (1 # 2) with
  | Lt => f
  | Gt => f + 1
  | Eq => if Z.even f then f else f + 1
  end.

(** [2 ^ k] for an integer [k] of either sign. *)
Definition pow2 (k : Z) : Q := (2 ^ k)%Q.

(** [floor(log2 x)] of a positive rational. *)
Definition ilog2 (x : Q) : Z :=
  let k := Z.log2 (Qnum x) - Z.log2 (Zpos (Qden x)) in
  if Qle_bool (pow2 k) x then k else k - 1.

(** The exponent of the last significand bit of the binade of [x]. *)
Definition ulp_exp (x : Q) : Z := Z.max (ilog2 x - 52) (-1074).

(** Rounding a positive rational to binary64. *)
Definition fl_pos (x : Q) : Q :=
  let e := ulp_exp x in
  (inject_Z (round_half_even (x / pow2 e)) * pow2 e)%Q.

(** Rounding to binary64: sign and magnitude. *)
Definition fl (x : Q) : Q :=
  Qred match x ?= 0 with
       | Gt => fl_pos x
       | Lt => - fl_pos (- x)
       | Eq => 0
       end%Q.

(** [a / b] on integers: the quotient, correctly rounded. *)
Definition truediv (a b : Z) : Q := fl (inject_Z a / inject_Z b).

(** [float(n)], as the operators convert an integer operand. *)
Definition float (n : Z) : Q := fl (inject_Z n).

Definition fadd (x y : Q) : Q := fl (x + y).
Definition fsub (x y : Q) : Q := fl (x - y).
Definition fmul (x y : Q) : Q := fl (x * y).
Definition fdiv (x y : Q) : Q := fl (x / y).

(** [round(x, 2)] on a float: the decimal nearest to the exact value of
    [x], ties to the even digit, read back as a float. *)
Definition round2 (x : Q) : Q :=
  fl (inject_Z (round_half_even (x * 100)) / 100).

(** [int(x)]: truncation towards zero. *)
Definition py_int (x : Q) : Z := Z.quot (Qnum x) (Zpos (Qden x)).

(** ** Streak engine: [calculate_streaks] *)

(** One element of [contributionDays]. *)
Record day := Day {
  date : Z;
  contributionCount : Z
}.

(** The dict returned by [calculate_streaks]; [None] is Python's [None]. *)
Record streaks := Streaks {
  total : Z;
  current : Z;
  current_start : option Z;
  current_end : option Z;
  longest : Z;
  longest_start : option Z;
  longest_end : option Z
}.

(** The local variables of [calculate_streaks] that the date walk and the
    code after it assign. *)
Module L.
Record t := Mk {
  current_streak : Z;
  current_start : option Z;
  current_end : option Z;
  longest_streak : Z;
  longest_start : option Z;
  longest_end : option Z;
  streak : Z;
  streak_start : option Z
}.

(** Their values before the loop. *)
Definition init : t :=
  {| current_streak := 0; current_start := None; current_end := None;
     longest_streak := 0; longest_start := None; longest_end := None;
     streak := 0; streak_start := None |}.
End L.

(** Body of the [while] loop for one [check_date]. *)
Definition walk_step (contrib_dates : gset Z) (check_date : Z) (v : L.t) : L.t :=
  let '(L.Mk current_streak current_start current_end
             longest_streak longest_start longest_end streak streak_start) := v in
  if decide (check_date ∈ contrib_dates) then
    let streak_start := if decide (streak = 0) then Some check_date else streak_start in
    let streak := streak + 1 in
    L.Mk current_streak current_start current_end
         longest_streak longest_start longest_end streak streak_start
  else if decide (streak > 0) then
    (* Streak ended *)
    let '(longest_streak, longest_start, longest_end) :=
      if decide (streak > longest_streak)
      then (streak, streak_start, Some (check_date - 1))
      else (longest_streak, longest_start, longest_end) in
    let streak := 0 in
    let streak_start := None in
    L.Mk current_streak current_start current_end
         longest_streak longest_start longest_end streak streak_start
  else v.

(** [while check_date <= today: ...; check_date += timedelta(days=1)].
    The loop runs [today + 1 - check_date] times; [fuel] is that bound. *)
Fixpoint walk_loop (fuel : nat) (contrib_dates : gset Z) (today check_date : Z)
    (v : L.t) : L.t :=
  match fuel with
  | O => v
  | S fuel' =>
      if decide (check_date ≤ today) then
        walk_loop fuel' contrib_dates today (check_date + 1)
          (walk_step contrib_dates check_date v)
      else v
  end.

Definition walk_dates (contrib_dates : gset Z) (today min_date : Z) (v : L.t) : L.t :=
  walk_loop (Z.to_nat (today + 1 - min_date)) contrib_dates today min_date v.

(** The code after the loop: "Handle ongoing streak". *)
Definition handle_ongoing (contrib_dates : gset Z) (today : Z) (v : L.t) : L.t :=
  let '(L.Mk current_streak current_start current_end
             longest_streak longest_start longest_end streak streak_start) := v in
  if decide (streak > 0) then
    let '(longest_streak, longest_start, longest_end) :=
      if decide (streak > longest_streak)
      then (streak, streak_start,
            Some (if decide (today ∈ contrib_dates) then today else today - 1))
      else (longest_streak, longest_start, longest_end) in
    (* Check if current streak is active (contributed today or yesterday) *)
    let yesterday := today - 1 in
    if decide (today ∈ contrib_dates ∨ yesterday ∈ contrib_dates) then
      let current_streak := streak in
      let current_start := streak_start in
      let current_end :=
        Some (if decide (today ∈ contrib_dates) then today else yesterday) in
      L.Mk current_streak current_start current_end
           longest_streak longest_start longest_end streak streak_start
    else
      L.Mk current_streak current_start current_end
           longest_streak longest_start longest_end streak streak_start
  else v.

(** The set of dates with contributions. *)
Definition contrib_dates_of (sorted_days : list day) : gset Z :=
  list_to_set (date <$> filter (λ d, contributionCount d > 0) sorted_days).

Definition calculate_streaks (e : env) (contribution_days : list day) : streaks :=
  (* Sort by date *)
  let sorted_days := sorted date contribution_days in
  let total_contributions := py_sum (contributionCount <$> sorted_days) in
  (* Build a set of dates with contributions *)
  let contrib_dates := contrib_dates_of sorted_days in
  if decide (contrib_dates = ∅) then
    {| total := 0;
       current := 0; current_start := None; current_end := None;
       longest := 0; longest_start := None; longest_end := None |}
  else
    (* Get min/max dates *)
    let all_dates := sorted id (elements contrib_dates) in
    let min_date := all_dates !!! 0%nat in
    let max_date := all_dates !!! (length all_dates - 1)%nat in
    let today := today e in
    (* Calculate streaks: iterate from min_date to today *)
    let v := walk_dates contrib_dates today min_date L.init in
    (* Handle ongoing streak *)
    let v := handle_ongoing contrib_dates today v in
    {| total := total_contributions;
       current := L.current_streak v;
       current_start := L.current_start v;
       current_end := L.current_end v;
       longest := L.longest_streak v;
       longest_start := L.longest_start v;
       longest_end := L.longest_end v |}.

(** The part of [main] that gathers the day records: one batch per
    contribution year, appended in order, then handed to
    [calculate_streaks]. *)
Definition main_all_days (batches : list (list day)) : list day :=
  foldl (λ all_days days, all_days ++ days) [] batches.

Definition main_streaks (e : env) (batches : list (list day)) : streaks :=
  calculate_streaks e (main_all_days batches).

(** ** Language aggregator: [calculate_language_stats] *)

(** [x.get(key, default)] on a dict whose key may be absent. *)
Definition get {A} (field : option A) (default : A) : A :=
  match field with Some x => x | None => default end.

(** [languages { edges { size node { name color } } }]. *)
Module Node.
Record t := Mk { name : string; color : option string }.
End Node.

Module Edge.
Record t := Mk { size : Z; node : Node.t }.
End Edge.

Module Languages.
Record t := Mk { edges : option (list Edge.t) }.
End Languages.

(** A node of [repositories]. *)
Module Repo.
Record t := Mk {
  stargazerCount : option Z;
  forkCount : option Z;
  languages : option Languages.t
}.
End Repo.

(** A value of the [lang_sizes] defaultdict. *)
Module Data.
Record t := Mk { size : Z; color : string }.
(** [lambda: {"size": 0, "color": "#858585"}] *)
Definition fresh : t := {| size := 0; color := "#858585" |}.
End Data.

(** An element of the list [calculate_language_stats] returns. *)
Module Lang.
Record t := Mk { name : string; percentage : Q; color : string }.
End Lang.

(** Truthiness of [edge["node"].get("color")]: neither [None] nor empty. *)
Definition truthy (s : option string) : bool :=
  match s with
  | Some (String _ _) => true
  | _ => false
  end.

(** The two assignments to [lang_sizes[name]] for one edge. *)
Definition add_edge (edge : Edge.t) (data : Data.t) : Data.t :=
  let size := Data.size data + Edge.size edge in
  let color := if truthy (Node.color (Edge.node edge))
               then get (Node.color (Edge.node edge)) EmptyString
               else Data.color data in
  Data.Mk size color.

(** [lang_sizes[name]] updated in place; a missing key is created from the
    default factory at the end of the dict. *)
Fixpoint update (name : string) (edge : Edge.t) (lang_sizes : list (string * Data.t))
    : list (string * Data.t) :=
  match lang_sizes with
  | [] => [(name, add_edge edge Data.fresh)]
  | (k, data) :: rest =>
      if decide (k = name) then (k, add_edge edge data) :: rest
      else (k, data) :: update name edge rest
  end.

Definition repo_edges (repo : Repo.t) : list Edge.t :=
  get (Languages.edges (get (Repo.languages repo) (Languages.Mk None))) [].

Definition collect_lang_sizes (repos : list Repo.t) : list (string * Data.t) :=
  foldl (λ lang_sizes repo,
           foldl (λ lang_sizes edge,
                    let name := Node.name (Edge.node edge) in
                    update name edge lang_sizes)
                 lang_sizes (repo_edges repo))
        [] repos.

(** [pct = (data["size"] / total_size * 100) if total_size > 0 else 0]. *)
Definition pct (size total_size : Z) : Q :=
  if decide (total_size > 0)
  then fmul (truediv size total_size) (float 100)
  else 0%Q.

Definition calculate_language_stats (repos : list Repo.t) : list Lang.t :=
  let lang_sizes := collect_lang_sizes repos in
  let total_size := py_sum (map (λ v, Data.size v.2) lang_sizes) in
  map (λ '(name, data),
         {| Lang.name := name;
            Lang.percentage := round2 (pct (Data.size data) total_size);
            Lang.color := Data.color data |})
      (sorted (λ x, - Data.size x.2) lang_sizes).

(** ** Rank scorer: the [score] and [rank] of [generate_stats_svg] *)

Module Calendar.
Record t := Mk { totalContributions : option Z }.
End Calendar.

Module CC.
Record t := Mk {
  totalCommitContributions : option Z;
  totalIssueContributions : option Z;
  totalPullRequestContributions : option Z;
  totalPullRequestReviewContributions : option Z;
  restrictedContributionsCount : option Z;
  contributionCalendar : option Calendar.t
}.
(** [{}] *)
Definition empty : t := Mk None None None None None None.
End CC.

Module Repositories.
Record t := Mk { nodes : option (list Repo.t) }.
End Repositories.

Module ContributedTo.
Record t := Mk { totalCount : option Z }.
End ContributedTo.

(** The user object [fetch_user_stats] returns, as far as the cards read it. *)
Module Stats.
Record t := Mk {
  repositories : option Repositories.t;
  contributionsCollection : option CC.t;
  repositoriesContributedTo : option ContributedTo.t
}.
End Stats.

Definition score (total_commits total_prs total_issues total_reviews total_stars : Z) : Z :=
  total_commits * 1 + total_prs * 2 + total_issues * 1 + total_reviews * 1 + total_stars * 1.

Definition rank (score : Z) : string :=
  if decide (score > 10000) then "S+"
  else if decide (score > 5000) then "S"
  else if decide (score > 2500) then "A+"
  else if decide (score > 1000) then "A"
  else if decide (score > 500) then "B+"
  else if decide (score > 100) then "B"
  else "C".

Definition repo_nodes (stats : Stats.t) : list Repo.t :=
  get (Repositories.nodes (get (Stats.repositories stats) (Repositories.Mk None))) [].

Definition total_stars (stats : Stats.t) : Z :=
  py_sum (map (λ r, get (Repo.stargazerCount r) 0) (repo_nodes stats)).

Definition total_forks (stats : Stats.t) : Z :=
  py_sum (map (λ r, get (Repo.forkCount r) 0) (repo_nodes stats)).

Definition total_commits (cc : CC.t) : Z :=
  get (CC.totalCommitContributions cc) 0 + get (CC.restrictedContributionsCount cc) 0.

Definition stats_score (stats : Stats.t) : Z :=
  let cc := get (Stats.contributionsCollection stats) CC.empty in
  let total_prs := get (CC.totalPullRequestContributions cc) 0 in
  let total_issues := get (CC.totalIssueContributions cc) 0 in
  let total_reviews := get (CC.totalPullRequestReviewContributions cc) 0 in
  score (total_commits cc) total_prs total_issues total_reviews (total_stars stats).

(** ** Card renderer *)

(** More Python built-ins: string formatting. *)

(** The double quote and the line feed, which the templates contain. *)
Definition dq : string := String (Ascii.ascii_of_nat 34) EmptyString.
Definition nl : string := String (Ascii.ascii_of_nat 10) EmptyString.

(** A quoted attribute value. *)
Definition q (s : string) : string := dq +:+ s +:+ dq.

(** An f-string is the concatenation of its pieces; so is ["".join(xs)]. *)
Definition join (pieces : list string) : string := String.concat EmptyString pieces.

(** [str(n)] and ["{n}"] for an integer. *)
Definition str (n : Z) : string := pretty n.

(** ["{n:,}"]: decimal digits grouped by three. *)
Fixpoint group3 (rev_digits : list ascii) (room : nat) : list ascii :=
  match rev_digits with
  | [] => []
  | c :: rest =>
      match room with
      | O => ","%char :: c :: group3 rest 2
      | S room' => c :: group3 rest room'
      end
  end.

Definition format_comma (n : Z) : string :=
  let digits := list_ascii_of_string (pretty (Z.abs n)) in
  let grouped := string_of_list_ascii (reverse (group3 (reverse digits) 3)) in
  if decide (n < 0) then "-" +:+ grouped else grouped.

(** [s or alt] on strings. *)
Definition or_else (s alt : string) : string :=
  match s with EmptyString => alt | _ => s end.

(** The number [offset] of the donut loop: the integer [0] before the first
    segment, a float afterwards. *)
Inductive num := Int (n : Z) | Float (x : Q).

Definition num_add (a : num) (x : Q) : num :=
  match a with
  | Int n => Float (fadd (float n) x)
  | Float y => Float (fadd y x)
  end.

Definition num_neg (a : num) : num :=
  match a with
  | Int n => Int (- n)
  | Float y => Float (- y)
  end.

(** [max(xs)] of a non-empty list. *)
Definition py_max (xs : list Z) : Z :=
  match xs with
  | [] => 0
  | x :: rest => foldl Z.max x rest
  end.

Definition num_Q (a : num) : Q :=
  match a with
  | Int n => float n
  | Float x => x
  end.

(** [base + i * step] for integers [base] and [i]. *)
Definition num_affine (base i : Z) (step : num) : num :=
  match step with
  | Int s => Int (base + i * s)
  | Float s => Float (fadd (float base) (fmul (float i) s))
  end.

(** The palettes of the three cards. *)
Module StatsTheme.
Record t := Mk { bg : string; border : string; title : string; text : string; icon : string }.
#[global] Instance inhabited : Inhabited t :=
  populate (Mk EmptyString EmptyString EmptyString EmptyString EmptyString).
Definition themes : gmap string t :=
  {[ "merko" := Mk "#0a0f0b" "#69ff97" "#69ff97" "#c9d1d9" "#69ff97";
     "dark" := Mk "#151515" "#e4e2e2" "#fff" "#9f9f9f" "#79ff97";
     "default" := Mk "#fffefe" "#e4e2e2" "#2f80ed" "#434d58" "#4c71f2" ]}.
End StatsTheme.

Module LangsTheme.
Record t := Mk { bg : string; border : string; title : string; text : string }.
#[global] Instance inhabited : Inhabited t :=
  populate (Mk EmptyString EmptyString EmptyString EmptyString).
Definition themes : gmap string t :=
  {[ "merko" := Mk "#0a0f0b" "#69ff97" "#69ff97" "#c9d1d9";
     "dark" := Mk "#151515" "#e4e2e2" "#fff" "#9f9f9f";
     "default" := Mk "#fffefe" "#e4e2e2" "#2f80ed" "#434d58" ]}.
End LangsTheme.

Module StreakTheme.
Record t := Mk {
  bg : string; border : string; title : string; text : string;
  dates : string; ring : string; fire : string
}.
#[global] Instance inhabited : Inhabited t :=
  populate (Mk EmptyString EmptyString EmptyString EmptyString
               EmptyString EmptyString EmptyString).
Definition themes : gmap string t :=
  {[ "tokyonight" := Mk "#1a1b27" "#70a5fd" "#70a5fd" "#38bdae" "#bf91f3" "#70a5fd" "#eb6e17";
     "dark" := Mk "#151515" "#e4e2e2" "#fff" "#9f9f9f" "#9f9f9f" "#fb8c00" "#fb8c00";
     "default" := Mk "#fffefe" "#e4e2e2" "#2f80ed" "#434d58" "#434d58" "#fb8c00" "#fb8c00" ]}.
End StreakTheme.

Section Render.
(** Library functions the generators call and this development does not
    define: the text of a float (["{x}"]), a float with one decimal
    (["{x:.1f}"]), [strftime] of a date under a format, and [sum] over a
    list of floats, whose rounding differs between versions of the
    interpreter. *)
Variable str_float : Q → string.
Variable format_1f : Q → string.
Variable strftime : Z → string → string.
Variable float_sum : list Q → Q.

Definition str_num (a : num) : string :=
  match a with
  | Int n => str n
  | Float x => str_float x
  end.

Definition generate_stats_svg (stats : Stats.t) (username : string)
    (theme : string) : string :=
  let themes := StatsTheme.themes in
  let t := get (themes !! theme) (themes !!! "merko") in
  let total_stars := total_stars stats in
  let total_forks := total_forks stats in
  let cc := get (Stats.contributionsCollection stats) CC.empty in
  let total_commits := total_commits cc in
  let total_prs := get (CC.totalPullRequestContributions cc) 0 in
  let total_issues := get (CC.totalIssueContributions cc) 0 in
  let total_reviews := get (CC.totalPullRequestReviewContributions cc) 0 in
  let total_contribs :=
    get (Calendar.totalContributions
           (get (CC.contributionCalendar cc) (Calendar.Mk None))) 0 in
  let repos_contributed :=
    get (ContributedTo.totalCount
           (get (Stats.repositoriesContributedTo stats) (ContributedTo.Mk None))) 0 in
  (* Calculate rank (simplified) *)
  let score := score total_commits total_prs total_issues total_reviews total_stars in
  let rank := rank score in
  join
    [
        "<svg width="; q "495"; " height="; q "195"; " viewBox="; q "0 0 495 195"; " fill="; q "none"; " xmlns="; q "http://www.w3.org/2000/svg"; ">"; nl;
        "  <style>"; nl;
        "    .header { font: 600 18px 'Segoe UI', Ubuntu, Sans-Serif; fill: "; StatsTheme.title t; "; animation: fadeInAnimation 0.8s ease-in-out forwards; }"; nl;
        "    .stat { font: 600 14px 'Segoe UI', Ubuntu, Sans-Serif; fill: "; StatsTheme.text t; "; }"; nl;
        "    .stagger { opacity: 0; animation: fadeInAnimation 0.3s ease-in-out forwards; }"; nl;
        "    .rank-text { font: 800 24px 'Segoe UI', Ubuntu, Sans-Serif; fill: "; StatsTheme.title t; "; }"; nl;
        "    .icon { fill: "; StatsTheme.icon t; "; }"; nl;
        "    @keyframes fadeInAnimation { from { opacity: 0; } to { opacity: 1; } }"; nl;
        "  </style>"; nl;
        "  <rect x="; q "0.5"; " y="; q "0.5"; " rx="; q "4.5"; " width="; q "494"; " height="; q "194"; " fill="; dq; StatsTheme.bg t; dq; " stroke="; dq; StatsTheme.border t; dq; "/>"; nl;
        "  <g transform="; q "translate(25, 35)"; ">"; nl;
        "    <text class="; q "header"; " x="; q "0"; " y="; q "0"; ">"; username; "'s GitHub Stats</text>"; nl;
        "  </g>"; nl;
        "  <g transform="; q "translate(25, 55)"; ">"; nl;
        "    <g class="; q "stagger"; " style="; q "animation-delay: 150ms"; " transform="; q "translate(0, 21)"; ">"; nl;
        "      <text class="; q "stat"; ">Total Stars Earned: "; format_comma total_stars; "</text>"; nl;
        "    </g>"; nl;
        "    <g class="; q "stagger"; " style="; q "animation-delay: 300ms"; " transform="; q "translate(0, 42)"; ">"; nl;
        "      <text class="; q "stat"; ">Total Commits (this year): "; format_comma total_commits; "</text>"; nl;
        "    </g>"; nl;
        "    <g class="; q "stagger"; " style="; q "animation-delay: 450ms"; " transform="; q "translate(0, 63)"; ">"; nl;
        "      <text class="; q "stat"; ">Total PRs: "; format_comma total_prs; "</text>"; nl;
        "    </g>"; nl;
        "    <g class="; q "stagger"; " style="; q "animation-delay: 600ms"; " transform="; q "translate(0, 84)"; ">"; nl;
        "      <text class="; q "stat"; ">Total Issues: "; format_comma total_issues; "</text>"; nl;
        "    </g>"; nl;
        "    <g class="; q "stagger"; " style="; q "animation-delay: 750ms"; " transform="; q "translate(0, 105)"; ">"; nl;
        "      <text class="; q "stat"; ">Contributed to (last year): "; str repos_contributed; "</text>"; nl;
        "    </g>"; nl;
        "  </g>"; nl;
        "  <g transform="; q "translate(400, 100)"; ">"; nl;
        "    <circle cx="; q "0"; " cy="; q "0"; " r="; q "40"; " fill="; q "none"; " stroke="; dq; StatsTheme.icon t; dq; " stroke-width="; q "5"; " opacity="; q "0.2"; "/>"; nl;
        "    <circle cx="; q "0"; " cy="; q "0"; " r="; q "40"; " fill="; q "none"; " stroke="; dq; StatsTheme.icon t; dq; " stroke-width="; q "5"; " stroke-dasharray="; q "251.2"; " stroke-dashoffset="; q "50"; " stroke-linecap="; q "round"; "/>"; nl;
        "    <text class="; q "rank-text"; " x="; q "0"; " y="; q "8"; " text-anchor="; q "middle"; ">"; rank; "</text>"; nl;
        "  </g>"; nl;
        "</svg>" ].

(** One iteration of the donut loop: the segment appended and the new
    [offset]. *)
Definition donut_segment (total : Q) (lang : Lang.t) (offset : num) : string * num :=
  let cx := 100 in
  let cy := 100 in
  let r := 70 in
  let stroke_width := 30 in
  let circumference := fmul (fmul (float 2) (fl 3.14159)) (float r) in
  let pct := if Qlt_le_dec 0 total then fdiv (Lang.percentage lang) total else 0%Q in
  let length := fmul circumference pct in
  (join
    [
        "<circle cx="; dq; str cx; dq; " cy="; dq; str cy; dq; " r="; dq; str r; dq; " fill="; q "none"; " "; nl;
        "            stroke="; dq; Lang.color lang; dq; " stroke-width="; dq; str stroke_width; dq; nl;
        "            stroke-dasharray="; dq; str_float length; " "; str_float (fsub circumference length); dq; nl;
        "            stroke-dashoffset="; dq; str_num (num_neg offset); dq; nl;
        "            transform="; dq; "rotate(-90, "; str cx; ", "; str cy; ")"; dq; "/>" ],
   num_add offset length).

Definition legend_item (i : Z) (lang : Lang.t) : string :=
  let y_offset := 30 + i * 25 in
  join
    [
        nl;
        "        <g transform="; dq; "translate(220, "; str y_offset; ")"; dq; ">"; nl;
        "            <circle cx="; q "6"; " cy="; q "6"; " r="; q "6"; " fill="; dq; Lang.color lang; dq; "/>"; nl;
        "            <text x="; q "18"; " y="; q "10"; " class="; q "lang-name"; ">"; Lang.name lang; "</text>"; nl;
        "            <text x="; q "200"; " y="; q "10"; " class="; q "lang-pct"; ">"; format_1f (Lang.percentage lang); "%</text>"; nl;
        "        </g>" ].

Definition generate_top_langs_svg (languages : list Lang.t)
    (theme : string) (layout : string) : string :=
  let themes := LangsTheme.themes in
  let t := get (themes !! theme) (themes !!! "merko") in
  let top_langs := take 10 languages in  (* Top 10 languages *)
  (* Generate donut chart data *)
  let total := float_sum (map Lang.percentage top_langs) in
  let '(donut_segments, offset) :=
    foldl (λ '(donut_segments, offset) lang,
             let '(segment, offset) := donut_segment total lang offset in
             (donut_segments ++ [segment], offset))
          ([], Int 0) top_langs in
  (* Language legend *)
  let legend_items := imap (λ i lang, legend_item (Z.of_nat i) lang) top_langs in
  let height := Z.max 200 (30 + Z.of_nat (length top_langs) * 25 + 30) in
  join
    [
        "<svg width="; q "450"; " height="; dq; str height; dq; " viewBox="; dq; "0 0 450 "; str height; dq; " fill="; q "none"; " xmlns="; q "http://www.w3.org/2000/svg"; ">"; nl;
        "  <style>"; nl;
        "    .header { font: 600 18px 'Segoe UI', Ubuntu, Sans-Serif; fill: "; LangsTheme.title t; "; }"; nl;
        "    .lang-name { font: 400 12px 'Segoe UI', Ubuntu, Sans-Serif; fill: "; LangsTheme.text t; "; }"; nl;
        "    .lang-pct { font: 600 12px 'Segoe UI', Ubuntu, Sans-Serif; fill: "; LangsTheme.text t; "; }"; nl;
        "  </style>"; nl;
        "  <rect x="; q "0.5"; " y="; q "0.5"; " rx="; q "4.5"; " width="; q "449"; " height="; dq; str (height - 1); dq; " fill="; dq; LangsTheme.bg t; dq; " stroke="; dq; LangsTheme.border t; dq; "/>"; nl;
        "  <text class="; q "header"; " x="; q "25"; " y="; q "30"; ">Most Used Languages</text>"; nl;
        "  <g transform="; q "translate(5, 30)"; ">"; nl;
        "    "; join donut_segments; nl;
        "  </g>"; nl;
        "  "; join legend_items; nl;
        "</svg>" ].

Definition format_date (d : option Z) : string :=
  match d with
  | None => "N/A"
  | Some dt => strftime dt "%b %d, %Y"
  end.

Definition generate_streak_svg (streaks : streaks) (username : string)
    (theme : string) : string :=
  let themes := StreakTheme.themes in
  let t := get (themes !! theme) (themes !!! "tokyonight") in
  let current := current streaks in
  let longest := longest streaks in
  let total := total streaks in
  let current_range :=
    match current_start streaks, current_end streaks with
    | Some _, Some _ =>
        join [format_date (current_start streaks); " - ";
              format_date (current_end streaks)]
    | _, _ => EmptyString
    end in
  let longest_range :=
    match longest_start streaks, longest_end streaks with
    | Some _, Some _ =>
        join [format_date (longest_start streaks); " - ";
              format_date (longest_end streaks)]
    | _, _ => EmptyString
    end in
  join
    [
        "<svg width="; q "495"; " height="; q "195"; " viewBox="; q "0 0 495 195"; " fill="; q "none"; " xmlns="; q "http://www.w3.org/2000/svg"; ">"; nl;
        "  <style>"; nl;
        "    .header { font: 600 14px 'Segoe UI', Ubuntu, Sans-Serif; fill: "; StreakTheme.title t; "; }"; nl;
        "    .stat { font: 700 28px 'Segoe UI', Ubuntu, Sans-Serif; fill: "; StreakTheme.text t; "; }"; nl;
        "    .label { font: 400 12px 'Segoe UI', Ubuntu, Sans-Serif; fill: "; StreakTheme.title t; "; }"; nl;
        "    .dates { font: 400 10px 'Segoe UI', Ubuntu, Sans-Serif; fill: "; StreakTheme.dates t; "; }"; nl;
        "  </style>"; nl;
        "  <rect x="; q "0.5"; " y="; q "0.5"; " rx="; q "4.5"; " width="; q "494"; " height="; q "194"; " fill="; dq; StreakTheme.bg t; dq; " stroke="; q "none"; "/>"; nl;
        "  "; nl;
        "  <!-- Total Contributions -->"; nl;
        "  <g transform="; q "translate(50, 48)"; ">"; nl;
        "    <text class="; q "header"; " x="; q "40"; " y="; q "0"; " text-anchor="; q "middle"; ">Total Contributions</text>"; nl;
        "    <text class="; q "stat"; " x="; q "40"; " y="; q "40"; " text-anchor="; q "middle"; ">"; format_comma total; "</text>"; nl;
        "    <text class="; q "dates"; " x="; q "40"; " y="; q "58"; " text-anchor="; q "middle"; ">All Time</text>"; nl;
        "  </g>"; nl;
        "  "; nl;
        "  <!-- Current Streak -->"; nl;
        "  <g transform="; q "translate(205, 48)"; ">"; nl;
        "    <text class="; q "header"; " x="; q "40"; " y="; q "0"; " text-anchor="; q "middle"; ">Current Streak</text>"; nl;
        "    <!-- Fire icon / ring -->"; nl;
        "    <circle cx="; q "40"; " cy="; q "50"; " r="; q "35"; " fill="; q "none"; " stroke="; dq; StreakTheme.ring t; dq; " stroke-width="; q "4"; "/>"; nl;
        "    <text class="; q "stat"; " x="; q "40"; " y="; q "58"; " text-anchor="; q "middle"; ">"; str current; "</text>"; nl;
        "    <text class="; q "dates"; " x="; q "40"; " y="; q "100"; " text-anchor="; q "middle"; ">"; or_else current_range "No active streak"; "</text>"; nl;
        "  </g>"; nl;
        "  "; nl;
        "  <!-- Longest Streak -->"; nl;
        "  <g transform="; q "translate(365, 48)"; ">"; nl;
        "    <text class="; q "header"; " x="; q "40"; " y="; q "0"; " text-anchor="; q "middle"; ">Longest Streak</text>"; nl;
        "    <text class="; q "stat"; " x="; q "40"; " y="; q "40"; " text-anchor="; q "middle"; ">"; str longest; "</text>"; nl;
        "    <text class="; q "dates"; " x="; q "40"; " y="; q "58"; " text-anchor="; q "middle"; ">"; or_else longest_range "N/A"; "</text>"; nl;
        "  </g>"; nl;
        "</svg>" ].

Definition generate_activity_graph_svg (contribution_days : list day)
  (username bg_color line_color point_color text_color : string)
  (area hide_border : bool) : string :=
(* Sort by date *)
let sorted_days := sorted date contribution_days in
match sorted_days with
| [] => join ["<svg width="; q "900"; " height="; q "300"; "></svg>"]
| _ :: _ =>
(* Graph dimensions *)
let width := 900 in
let height := 300 in
let padding_left := 60 in
let padding_right := 30 in
let padding_top := 40 in
let padding_bottom := 60 in
let graph_width := width - padding_left - padding_right in
let graph_height := height - padding_top - padding_bottom in
(* Get contribution data *)
let dates := date <$> sorted_days in
let counts := contributionCount <$> sorted_days in
let max_count := match counts with [] => 1 | _ => py_max counts end in
(* Calculate points *)
let num_points := Z.of_nat (length counts) in
let x_step :=
  if decide (num_points > 1)
  then Float (truediv graph_width (num_points - 1))
  else Int graph_width in
let points :=
  imap (λ i count,
          let x := num_affine padding_left (Z.of_nat i) x_step in
          let y :=
            if decide (max_count > 0)
            then Float (fsub (float (padding_top + graph_height))
                             (fmul (truediv count max_count) (float graph_height)))
            else Int (padding_top + graph_height) in
          (x, y))
       counts in
(* Generate path for line *)
let '(line_path, area_path) :=
  match points with
  | first :: rest =>
      let line_path :=
        foldl (λ line_path '(x, y),
                 line_path +:+
                 join [" L "; format_1f (num_Q x); " "; format_1f (num_Q y)])
              (join ["M "; format_1f (num_Q first.1); " "; format_1f (num_Q first.2)])
              rest in
      (* Generate area path (closed) *)
      let area_path := line_path in
      let area_path :=
        area_path +:+
        join [" L "; format_1f (num_Q (List.last points first).1); " ";
              str (padding_top + graph_height)] in
      let area_path :=
        area_path +:+
        join [" L "; format_1f (num_Q first.1); " ";
              str (padding_top + graph_height); " Z"] in
      (line_path, area_path)
  | [] => (EmptyString, EmptyString)
  end in
(* Generate Y-axis labels *)
let num_y_labels := 5 in
let y_labels :=
  mbind (λ i,
           let value := py_int (truediv (max_count * i) num_y_labels) in
           let y := fsub (float (padding_top + graph_height))
                         (fmul (truediv i num_y_labels) (float graph_height)) in
           [ join
            [
                "<text x="; dq; str (padding_left - 10); dq; " y="; dq; str_float (fadd y (float 4)); dq; " class="; q "axis-label"; " text-anchor="; q "end"; ">"; str value; "</text>" ];
             (* Grid line *)
             join
            [
                "<line x1="; dq; str padding_left; dq; " y1="; dq; str_float y; dq; " x2="; dq; str (width - padding_right); dq; " y2="; dq; str_float y; dq; " stroke="; dq; text_color; dq; " stroke-opacity="; q "0.1"; "/>" ] ])
        (seqZ 0 (num_y_labels + 1)) in
(* Generate X-axis labels (show ~7 dates) *)
let label_interval := Z.max 1 (Z.of_nat (length dates) `div` 7) in
let x_labels :=
  omap (λ '(i, d),
          if decide (Z.of_nat i `mod` label_interval = 0) then
            let x := num_affine padding_left (Z.of_nat i) x_step in
            let label := strftime d "%b %d" in
            Some (join
            [
                "<text x="; dq; str_num x; dq; " y="; dq; str (height - 20); dq; " class="; q "axis-label"; " text-anchor="; q "middle"; ">"; label; "</text>" ])
          else None)
       (imap pair dates) in
(* Generate point markers *)
let point_markers :=
  (λ '(x, y), join
    [
        "<circle cx="; dq; format_1f (num_Q x); dq; " cy="; dq; format_1f (num_Q y); dq; " r="; q "3"; " fill="; dq; point_color; dq; "/>" ]) <$> points in
let border_style :=
  if hide_border then EmptyString
  else join
    [
        "stroke="; dq; text_color; dq; " stroke-width="; q "1" ] in
let area_fill :=
  if area && negb (String.eqb area_path EmptyString)
  then join ["<path d="; dq; area_path; dq; " fill="; dq; line_color; dq;
             " fill-opacity="; q "0.1"; "/>"]
  else EmptyString in
join
[
    "<svg width="; dq; str width; dq; " height="; dq; str height; dq; " viewBox="; dq; "0 0 "; str width; " "; str height; dq; " fill="; q "none"; " xmlns="; q "http://www.w3.org/2000/svg"; ">"; nl;
    "  <style>"; nl;
    "    .title { font: 600 16px 'Segoe UI', Ubuntu, Sans-Serif; fill: "; text_color; "; }"; nl;
    "    .axis-label { font: 400 11px 'Segoe UI', Ubuntu, Sans-Serif; fill: "; text_color; "; opacity: 0.7; }"; nl;
    "  </style>"; nl;
    "  <rect x="; q "0"; " y="; q "0"; " width="; dq; str width; dq; " height="; dq; str height; dq; " fill="; dq; bg_color; dq; " rx="; q "4.5"; " "; border_style; "/>"; nl;
    "  "; nl;
    "  <!-- Title -->"; nl;
    "  <text class="; q "title"; " x="; dq; str (width `div` 2); dq; " y="; q "25"; " text-anchor="; q "middle"; ">"; username; "'s Contribution Graph</text>"; nl;
    "  "; nl;
    "  <!-- Y-axis labels and grid -->"; nl;
    "  "; join y_labels; nl;
    "  "; nl;
    "  <!-- X-axis labels -->"; nl;
    "  "; join x_labels; nl;
    "  "; nl;
    "  <!-- Area fill -->"; nl;
    "  "; area_fill; nl;
    "  "; nl;
    "  <!-- Line -->"; nl;
    "  <path d="; dq; line_path; dq; " stroke="; dq; line_color; dq; " stroke-width="; q "2"; " fill="; q "none"; "/>"; nl;
    "  "; nl;
    "  <!-- Points -->"; nl;
    "  "; join point_markers; nl;
    "  "; nl;
    "  <!-- Axis lines -->"; nl;
    "  <line x1="; dq; str padding_left; dq; " y1="; dq; str padding_top; dq; " x2="; dq; str padding_left; dq; " y2="; dq; str (padding_top + graph_height); dq; " stroke="; dq; text_color; dq; " stroke-opacity="; q "0.3"; "/>"; nl;
    "  <line x1="; dq; str padding_left; dq; " y1="; dq; str (padding_top + graph_height); dq; " x2="; dq; str (width - padding_right); dq; " y2="; dq; str (padding_top + graph_height); dq; " stroke="; dq; text_color; dq; " stroke-opacity="; q "0.3"; "/>"; nl;
    "</svg>" ]
end.
End Render.

(** * Specification vocabulary

    The notions the properties below are stated with. *)

(** Order of two elements by their sort key. *)
Definition key_le {A} (key : A → Z) (x y : A) : Prop := key x ≤ key y.

(** A date is active when some record of the series gives it a positive
    count. *)
Definition active (days : list day) (d : Z) : Prop :=
  ∃ r, r ∈ days ∧ date r = d ∧ contributionCount r > 0.

(** A streak as the walk sees it, stated on the series itself: consecutive
    active dates [s..e] up to [today], with [s - 1] inactive and, unless
    [e] is [today], [e + 1] inactive. *)
Definition streak_run (days : list day) (today s e : Z) : Prop :=
  s ≤ e ∧ e ≤ today ∧
  (∀ x, s ≤ x ≤ e → active days x) ∧
  ¬ active days (s - 1) ∧
  (e = today ∨ ¬ active days (e + 1)).

(** The same, on the set of active dates the code builds. *)
Definition run_in (contrib_dates : gset Z) (today s e : Z) : Prop :=
  s ≤ e ∧ e ≤ today ∧
  (∀ x, s ≤ x ≤ e → x ∈ contrib_dates) ∧
  ((s - 1) ∉ contrib_dates) ∧
  (e = today ∨ (e + 1) ∉ contrib_dates).

(** Invariant of the date walk, at the top of the loop with
    [check_date = d]: the runs ending before [d - streak] are closed and
    accounted for in the longest-so-far; the run of length [streak] ending
    at [d - 1] is still open. *)
Record walk_inv (contrib_dates : gset Z) (today d : Z) (v : L.t) : Prop := {
  inv_current :
    L.current_streak v = 0 ∧ L.current_start v = None ∧ L.current_end v = None;
  inv_streak : 0 ≤ L.streak v;
  inv_start :
    L.streak_start v =
      if decide (L.streak v = 0) then None else Some (d - L.streak v);
  inv_open : ∀ x, d - L.streak v ≤ x < d → x ∈ contrib_dates;
  inv_before : (d - L.streak v - 1) ∉ contrib_dates;
  inv_longest : 0 ≤ L.longest_streak v;
  inv_none :
    L.longest_streak v = 0 → L.longest_start v = None ∧ L.longest_end v = None;
  inv_some :
    0 < L.longest_streak v →
    ∃ ls le, L.longest_start v = Some ls ∧ L.longest_end v = Some le ∧
             run_in contrib_dates today ls le ∧ le < d - L.streak v ∧
             le - ls + 1 = L.longest_streak v;
  inv_max :
    ∀ s e, run_in contrib_dates today s e → e < d - L.streak v →
      e - s + 1 ≤ L.longest_streak v ∧
      (e - s + 1 = L.longest_streak v →
       ∀ ls, L.longest_start v = Some ls → ls ≤ s)
}.

(** What the locals hold when [calculate_streaks] builds its result. *)
Record final_spec (contrib_dates : gset Z) (today : Z) (v : L.t) : Prop := {
  fin_longest : 0 ≤ L.longest_streak v;
  fin_none :
    L.longest_streak v = 0 → L.longest_start v = None ∧ L.longest_end v = None;
  fin_some :
    0 < L.longest_streak v →
    ∃ ls le, L.longest_start v = Some ls ∧ L.longest_end v = Some le ∧
             run_in contrib_dates today ls le ∧
             le - ls + 1 = L.longest_streak v;
  fin_max :
    ∀ s e, run_in contrib_dates today s e →
      e - s + 1 ≤ L.longest_streak v ∧
      (e - s + 1 = L.longest_streak v →
       ∀ ls, L.longest_start v = Some ls → ls ≤ s);
  fin_inactive :
    today ∉ contrib_dates →
    L.current_streak v = 0 ∧ L.current_start v = None ∧ L.current_end v = None;
  fin_current :
    ∀ s, run_in contrib_dates today s today →
      L.current_streak v = today - s + 1 ∧
      L.current_start v = Some s ∧ L.current_end v = Some today;
  fin_le : L.current_streak v ≤ L.longest_streak v
}.

(** All language edges, repository by repository, in the order the two
    nested loops visit them. *)
Definition all_edges (repos : list Repo.t) : list Edge.t :=
  concat (repo_edges <$> repos).

Definition edge_name (edge : Edge.t) : string := Node.name (Edge.node edge).

(** The byte size of one language summed over all repositories, and the
    byte size of all languages together, as the specification words them. *)
Definition language_size (repos : list Repo.t) (name : string) : Z :=
  py_sum (Edge.size <$> filter (λ edge, edge_name edge = name) (all_edges repos)).

Definition total_size (repos : list Repo.t) : Z :=
  py_sum (Edge.size <$> all_edges repos).

(** The percentage of a size in a total as a rational number, before any
    rounding. *)
Definition exact_pct (size total : Z) : Q :=
  (100 * inject_Z size / inject_Z total)%Q.

(** The exact sum of a list of rationals. *)
Definition sumQ (xs : list Q) : Q := fold_left Qplus xs 0%Q.

(** How far a reported percentage may lie from the exact one: half a unit
    of the second decimal for [round(pct, 2)], and [2 ^ -44] for the
    binary64 roundings of the division, the multiplication and the decimal
    read back. *)
Definition rounding_slack : Q := ((1 # 200) + pow2 (-44))%Q.

(** The body of the inner loop of [calculate_language_stats]. *)
Definition add_to (lang_sizes : list (string * Data.t)) (edge : Edge.t) :=
  update (edge_name edge) edge lang_sizes.

(** One entry of the result, from an item of [lang_sizes]. *)
Definition share (total_size : Z) (item : string * Data.t) : Lang.t :=
  {| Lang.name := item.1;
     Lang.percentage := round2 (pct (Data.size item.2) total_size);
     Lang.color := Data.color item.2 |}.

(** The sizes behind the ranked entries, in ranking order. *)
Definition ranked_sizes (repos : list Repo.t) : list Z :=
  (λ x, Data.size x.2) <$> sorted (λ x, - Data.size x.2) (collect_lang_sizes repos).

(** The example of the specification: A:300 and B:100 in one repository,
    B:100 in a second one. *)
Definition example_repos : list Repo.t :=
  [ Repo.Mk None None
      (Some (Languages.Mk (Some [ Edge.Mk 300 (Node.Mk "A" None);
                                  Edge.Mk 100 (Node.Mk "B" None) ])));
    Repo.Mk None None
      (Some (Languages.Mk (Some [ Edge.Mk 100 (Node.Mk "B" None) ]))) ].

(** Six languages of one byte each. *)
Definition six_equal_languages : list Repo.t :=
  [ Repo.Mk None None
      (Some (Languages.Mk (Some
         ((λ name, Edge.Mk 1 (Node.Mk name None)) <$>
            ["a"; "b"; "c"; "d"; "e"; "f"])))) ].

(** Three languages of one byte each. *)
Definition three_equal_languages : list Repo.t :=
  [ Repo.Mk None None
      (Some (Languages.Mk (Some
         ((λ name, Edge.Mk 1 (Node.Mk name None)) <$> ["a"; "b"; "c"])))) ].

(** The colours the edges carry for one language, in visiting order: the
    colour of every edge of that language that has one, present and not
    empty. *)
Definition colours_of (name : string) (edges : list Edge.t) : list string :=
  omap (λ edge,
          if decide (edge_name edge = name)
          then match Node.color (Edge.node edge) with
               | Some c => if decide (c = EmptyString) then None else Some c
               | None => None
               end
          else None)
       edges.

(** The last colour seen for a language, grey when none was seen. *)
Definition last_colour (repos : list Repo.t) (name : string) : string :=
  default "#858585" (last (colours_of name (all_edges repos))).

(** Two repositories: Python first without a colour, then blue, then with an
    empty colour; Go never with a colour. *)
Definition color_repos : list Repo.t :=
  [ Repo.Mk None None
      (Some (Languages.Mk (Some [ Edge.Mk 10 (Node.Mk "Python" None);
                                  Edge.Mk 5 (Node.Mk "Go" None) ])));
    Repo.Mk None None
      (Some (Languages.Mk (Some [ Edge.Mk 20 (Node.Mk "Python" (Some "#3572A5"));
                                  Edge.Mk 1 (Node.Mk "Python" (Some EmptyString)) ]))) ].

(** The place of a grade on the scale C < B < B+ < A < A+ < S < S+. *)
Definition tier (grade : string) : Z :=
  if decide (grade = "S+") then 6
  else if decide (grade = "S") then 5
  else if decide (grade = "A+") then 4
  else if decide (grade = "A") then 3
  else if decide (grade = "B+") then 2
  else if decide (grade = "B") then 1
  else 0.

(** [sub] occurs in [s]. *)
Definition contains (s sub : string) : Prop :=
  ∃ pre post, s = pre +:+ sub +:+ post.

(** A rule of a card's style sheet: the font and the fill colour of a class. *)
Definition css_rule (class font colour : string) : string :=
  join ["."; class; " { font: "; font; " 'Segoe UI', Ubuntu, Sans-Serif; fill: ";
        colour; ";"].

(** An attribute of an element. *)
Definition attr (name value : string) : string := join [name; "="; q value].

(** A stats card painted in a palette: the title colour on the header and
    the rank, the text colour on the counters, the icon colour on the
    icons, and the background and border colours on the frame. *)
Definition stats_card_painted (card bg border title text icon : string) : Prop :=
  contains card (css_rule "header" "600 18px" title) ∧
  contains card (css_rule "stat" "600 14px" text) ∧
  contains card (css_rule "rank-text" "800 24px" title) ∧
  contains card (join [".icon { fill: "; icon; ";"]) ∧
  contains card (join [attr "fill" bg; " "; attr "stroke" border]).

(** A top-languages card painted in a palette. *)
Definition langs_card_painted (card bg border title text : string) : Prop :=
  contains card (css_rule "header" "600 18px" title) ∧
  contains card (css_rule "lang-name" "400 12px" text) ∧
  contains card (css_rule "lang-pct" "600 12px" text) ∧
  contains card (join [attr "fill" bg; " "; attr "stroke" border]).

(** A streak card painted in a palette; its frame has no border. *)
Definition streak_card_painted (card bg title text dates ring : string) : Prop :=
  contains card (css_rule "header" "600 14px" title) ∧
  contains card (css_rule "stat" "700 28px" text) ∧
  contains card (css_rule "label" "400 12px" title) ∧
  contains card (css_rule "dates" "400 10px" dates) ∧
  contains card (join [attr "fill" bg; " "; attr "stroke" "none"]) ∧
  contains card (join [attr "stroke" ring; " "; attr "stroke-width" "4"]).

(** A string with its commas removed. *)
Definition strip_commas (s : string) : string :=
  string_of_list_ascii (filter (λ c, c ≠ ","%char) (list_ascii_of_string s)).

(** * Properties *)

(** ** Built-ins *)

Section sorted_facts.
Context {A : Type} (key : A → Z).

Lemma insert_by_Permutation x l : insert_by key x l ≡ₚ x :: l.
Proof.
  induction l as [|y l IH]; simpl; [done|].
  case_decide; [done|]. rewrite IH. apply Permutation_swap.
Qed.

Lemma sorted_Permutation l : sorted key l ≡ₚ l.
Proof.
  induction l as [|x l IH]; simpl; [done|].
  by rewrite insert_by_Permutation, IH.
Qed.

Lemma insert_by_Sorted x l :
  StronglySorted (key_le key) l → StronglySorted (key_le key) (insert_by key x l).
Proof.
  induction 1 as [|y l Hl IH Hy]; simpl.
  - repeat constructor.
  - case_decide as Hxy.
    + constructor; [by constructor|].
      constructor; [done|].
      eapply Forall_impl; [exact Hy|]. intros z Hz. unfold key_le in *. lia.
    + constructor; [done|].
      rewrite insert_by_Permutation. constructor; [|done].
      unfold key_le. lia.
Qed.

Lemma sorted_StronglySorted l : StronglySorted (key_le key) (sorted key l).
Proof.
  induction l as [|x l IH]; simpl; [constructor|]. by apply insert_by_Sorted.
Qed.

Lemma elem_of_sorted x l : x ∈ sorted key l ↔ x ∈ l.
Proof. by rewrite sorted_Permutation. Qed.
End sorted_facts.

Lemma fold_left_add_acc (xs : list Z) (a : Z) :
  fold_left Z.add xs a = a + py_sum xs.
Proof.
  unfold py_sum. revert a.
  induction xs as [|x xs IH]; intros a; simpl; [lia|].
  rewrite (IH (a + x)), (IH (0 + x)). lia.
Qed.

Lemma py_sum_nil : py_sum [] = 0.
Proof. done. Qed.

Lemma py_sum_cons x xs : py_sum (x :: xs) = x + py_sum xs.
Proof. unfold py_sum at 1. simpl. by rewrite fold_left_add_acc. Qed.

Lemma py_sum_app xs ys : py_sum (xs ++ ys) = py_sum xs + py_sum ys.
Proof.
  induction xs as [|x xs IH]; simpl; [by rewrite py_sum_nil|].
  rewrite !py_sum_cons, IH. lia.
Qed.

Lemma py_sum_Permutation xs ys : xs ≡ₚ ys → py_sum xs = py_sum ys.
Proof.
  induction 1; rewrite ?py_sum_cons; lia.
Qed.

(** ** Binary64 rounding *)

(** Rounding to the nearest integer moves a number by at most one half. *)
Lemma round_half_even_le (x : Q) : (inject_Z (round_half_even x) <= x + (1 # 2))%Q.
Proof.
  unfold round_half_even.
  pose proof (Qfloor_le x) as Hfl.
  destruct (Qcompare_spec (x - inject_Z (Qfloor x)) (1 # 2)) as [Heq|Hlt|Hgt].
  - destruct (Z.even (Qfloor x)); [lra|]. rewrite inject_Z_plus. change (inject_Z 1) with 1%Q. lra.
  - lra.
  - rewrite inject_Z_plus. change (inject_Z 1) with 1%Q. lra.
Qed.

Lemma round_half_even_ge (x : Q) : (x - (1 # 2) <= inject_Z (round_half_even x))%Q.
Proof.
  unfold round_half_even.
  pose proof (Qlt_floor x) as Hfl. rewrite inject_Z_plus in Hfl.
  change (inject_Z 1) with 1%Q in Hfl.
  destruct (Qcompare_spec (x - inject_Z (Qfloor x)) (1 # 2)) as [Heq|Hlt|Hgt].
  - destruct (Z.even (Qfloor x)); [lra|]. rewrite inject_Z_plus. change (inject_Z 1) with 1%Q. lra.
  - lra.
  - rewrite inject_Z_plus. change (inject_Z 1) with 1%Q. lra.
Qed.

(** What [round_half_even] returns, relative to the floor. *)
Lemma round_half_even_floor (x : Q) :
  Qfloor x ≤ round_half_even x ≤ Qfloor x + 1.
Proof.
  unfold round_half_even.
  destruct (Qcompare _ _); [destruct (Z.even _)| |]; lia.
Qed.

Lemma round_half_even_mono (x y : Q) :
  (x <= y)%Q → round_half_even x ≤ round_half_even y.
Proof.
  intros Hxy. pose proof (Qfloor_resp_le x y Hxy) as Hfl.
  destruct (decide (Qfloor x = Qfloor y)) as [Heq|Hne].
  - unfold round_half_even. rewrite Heq.
    destruct (Qcompare_spec (x - inject_Z (Qfloor y)) (1 # 2)) as [Hx|Hx|Hx];
      destruct (Qcompare_spec (y - inject_Z (Qfloor y)) (1 # 2)) as [Hy|Hy|Hy];
      try destruct (Z.even (Qfloor y)); try lia; lra.
  - pose proof (round_half_even_floor x). pose proof (round_half_even_floor y). lia.
Qed.

(** *** Powers of two and binades *)

Lemma pow2_pos (k : Z) : (0 < pow2 k)%Q.
Proof. apply Qpower_0_lt. reflexivity. Qed.

Lemma pow2_nonzero (k : Z) : ¬ (pow2 k == 0)%Q.
Proof. pose proof (pow2_pos k). lra. Qed.

Lemma pow2_add (a b : Z) : (pow2 (a + b) == pow2 a * pow2 b)%Q.
Proof. apply Qpower_plus. discriminate. Qed.

Lemma pow2_sub (a b : Z) : (pow2 (a - b) == pow2 a / pow2 b)%Q.
Proof.
  pose proof (pow2_add (a - b) b) as H. replace (a - b + b) with a in H by lia.
  rewrite H. field. apply pow2_nonzero.
Qed.

Lemma pow2_le_mono (a b : Z) : a ≤ b → (pow2 a <= pow2 b)%Q.
Proof. intros H. apply Qpower_le_compat_l; [done|discriminate]. Qed.

Lemma pow2_lt_mono (a b : Z) : a < b → (pow2 a < pow2 b)%Q.
Proof. intros H. apply Qpower_lt_compat_l; [done|reflexivity]. Qed.

Lemma pow2_lt_inv (a b : Z) : (pow2 a < pow2 b)%Q → a < b.
Proof. intros H. apply (Qpower_lt_compat_l_inv 2); [done|reflexivity]. Qed.

Lemma pow2_Z (k : Z) : 0 ≤ k → (pow2 k == inject_Z (2 ^ k))%Q.
Proof. intros H. unfold pow2. by rewrite Zpower_Qpower. Qed.

Lemma pow2_succ (k : Z) : (pow2 (k + 1) == 2 * pow2 k)%Q.
Proof. rewrite pow2_add. change (pow2 1) with 2%Q. ring. Qed.

(** [ilog2 x] is the binade of [x]. *)
Lemma ilog2_spec (x : Q) :
  (0 < x)%Q → (pow2 (ilog2 x) <= x < pow2 (ilog2 x + 1))%Q.
Proof.
  intros Hx. destruct x as [n d]. unfold ilog2. cbn [Qnum Qden].
  assert (0 < n) as Hn by (unfold Qlt in Hx; simpl in Hx; lia).
  set (a := Z.log2 n). set (b := Z.log2 (Z.pos d)).
  destruct (Z.log2_spec n Hn) as [Ha1 Ha2]. fold a in Ha1, Ha2.
  destruct (Z.log2_spec (Z.pos d)) as [Hb1 Hb2]; [lia|]. fold b in Hb1, Hb2.
  assert (0 ≤ a) as Ha0 by apply Z.log2_nonneg.
  assert (0 ≤ b) as Hb0 by apply Z.log2_nonneg.
  assert (n # d == inject_Z n / inject_Z (Z.pos d))%Q as Hnd by apply Qmake_Qdiv.
  assert (0 < inject_Z (Z.pos d))%Q as Hdpos by (unfold Qlt; simpl; lia).
  assert (0 < inject_Z (2 ^ b))%Q as Hbpos.
  { change 0%Q with (inject_Z 0). rewrite <- Zlt_Qlt. lia. }
  (* the quotient lies strictly between 2^(a-b-1) and 2^(a-b+1) *)
  assert (pow2 (a - b - 1) < n # d)%Q as Hlow.
  { replace (a - b - 1) with (a - (b + 1)) by lia.
    rewrite pow2_sub, !pow2_Z, Hnd by lia.
    apply Qlt_shift_div_l; [done|].
    unfold Qdiv. rewrite <- Qmult_assoc, (Qmult_comm (/ _)), Qmult_assoc.
    apply Qlt_shift_div_r.
    { change 0%Q with (inject_Z 0). rewrite <- Zlt_Qlt. lia. }
    rewrite <- !inject_Z_mult, <- Zlt_Qlt. nia. }
  assert (n # d < pow2 (a - b + 1))%Q as Hhigh.
  { replace (a - b + 1) with (a + 1 - b) by lia.
    rewrite pow2_sub, !pow2_Z, Hnd by lia.
    apply Qlt_shift_div_r; [done|].
    unfold Qdiv. rewrite <- Qmult_assoc, (Qmult_comm (/ _)), Qmult_assoc.
    apply Qlt_shift_div_l; [done|].
    rewrite <- !inject_Z_mult, <- Zlt_Qlt. nia. }
  destruct (Qle_bool (pow2 (a - b)) (n # d)) eqn:Hcmp.
  - apply Qle_bool_iff in Hcmp. split; [done|]. done.
  - assert (n # d < pow2 (a - b))%Q as Hlt.
    { apply Qnot_le_lt. intros H. apply Qle_bool_iff in H. congruence. }
    replace (a - b - 1 + 1) with (a - b) by lia. split; [|done].
    by apply Qlt_le_weak.
Qed.

(** The binade is determined by the value. *)
Lemma ilog2_unique (x : Q) (k : Z) :
  (pow2 k <= x < pow2 (k + 1))%Q → ilog2 x = k.
Proof.
  intros [Hlo Hhi].
  assert (0 < x)%Q as Hx by (pose proof (pow2_pos k); lra).
  destruct (ilog2_spec x Hx) as [Hlo' Hhi'].
  assert (k < ilog2 x + 1) by (apply pow2_lt_inv; lra).
  assert (ilog2 x < k + 1) by (apply pow2_lt_inv; lra).
  lia.
Qed.

Lemma ilog2_mono (x y : Q) : (0 < x)%Q → (x <= y)%Q → ilog2 x ≤ ilog2 y.
Proof.
  intros Hx Hxy.
  destruct (ilog2_spec x Hx) as [Hlo _].
  destruct (ilog2_spec y) as [_ Hhi]; [lra|].
  assert (ilog2 x < ilog2 y + 1) by (apply pow2_lt_inv; lra).
  lia.
Qed.

Lemma ulp_exp_mono (x y : Q) : (0 < x)%Q → (x <= y)%Q → ulp_exp x ≤ ulp_exp y.
Proof. intros Hx Hxy. unfold ulp_exp. pose proof (ilog2_mono x y Hx Hxy). lia. Qed.

(** *** Rounding to the grid of a binade *)

Lemma round_half_even_Z (m : Z) : round_half_even (inject_Z m) = m.
Proof.
  unfold round_half_even. rewrite Qfloor_Z.
  destruct (Qcompare_spec (inject_Z m - inject_Z m) (1 # 2)) as [H|H|H];
    [lra|done|lra].
Qed.

Lemma pow2_grid (a e : Z) : e ≤ a → (pow2 a == inject_Z (2 ^ (a - e)) * pow2 e)%Q.
Proof.
  intros H. rewrite <- pow2_Z, <- pow2_add by lia. by replace (a - e + e) with a by lia.
Qed.

(** A multiple of the last significand bit above [x] bounds its rounding. *)
Lemma fl_pos_le_grid (x : Q) (m : Z) :
  (x <= inject_Z m * pow2 (ulp_exp x))%Q → (fl_pos x <= inject_Z m * pow2 (ulp_exp x))%Q.
Proof.
  intros H. unfold fl_pos. pose proof (pow2_pos (ulp_exp x)) as Hp.
  apply Qmult_le_compat_r; [|lra].
  rewrite <- Zle_Qle. rewrite <- (round_half_even_Z m).
  apply round_half_even_mono. apply Qle_shift_div_r; [done|lra].
Qed.

Lemma fl_pos_ge_grid (x : Q) (m : Z) :
  (inject_Z m * pow2 (ulp_exp x) <= x)%Q → (inject_Z m * pow2 (ulp_exp x) <= fl_pos x)%Q.
Proof.
  intros H. unfold fl_pos. pose proof (pow2_pos (ulp_exp x)) as Hp.
  apply Qmult_le_compat_r; [|lra].
  rewrite <- Zle_Qle. rewrite <- (round_half_even_Z m).
  apply round_half_even_mono. apply Qle_shift_div_l; [done|lra].
Qed.

Lemma fl_pos_nonneg (x : Q) : (0 <= x)%Q → (0 <= fl_pos x)%Q.
Proof.
  intros Hx. pose proof (fl_pos_ge_grid x 0) as H. change (inject_Z 0) with 0%Q in H.
  rewrite Qmult_0_l in H. apply H. lra.
Qed.

(** Rounding moves [x] by at most half a unit in the last place. *)
Lemma fl_pos_error (x : Q) :
  (x - pow2 (ulp_exp x - 1) <= fl_pos x <= x + pow2 (ulp_exp x - 1))%Q.
Proof.
  unfold fl_pos. set (e := ulp_exp x). pose proof (pow2_pos e) as Hp.
  pose proof (round_half_even_le (x / pow2 e)) as Hle.
  pose proof (round_half_even_ge (x / pow2 e)) as Hge.
  set (r := inject_Z (round_half_even (x / pow2 e))) in *.
  assert (pow2 (e - 1) == pow2 e * (1 # 2))%Q as ->.
  { rewrite pow2_sub. change (pow2 1) with 2%Q. field. }
  assert (x == x / pow2 e * pow2 e)%Q as Hxe by (field; lra).
  split.
  - apply Qle_trans with ((x / pow2 e - (1 # 2)) * pow2 e)%Q.
    + rewrite Hxe at 1. apply Qle_lteq. right. ring.
    + apply Qmult_le_compat_r; [done|lra].
  - apply Qle_trans with ((x / pow2 e + (1 # 2)) * pow2 e)%Q.
    + apply Qmult_le_compat_r; [done|lra].
    + rewrite Hxe at 2. apply Qle_lteq. right. ring.
Qed.
Lemma fl_pos_mono (x y : Q) : (0 < x)%Q → (x <= y)%Q → (fl_pos x <= fl_pos y)%Q.
Proof.
  intros Hx Hxy. assert (0 < y)%Q as Hy by lra.
  pose proof (ulp_exp_mono x y Hx Hxy) as He.
  destruct (decide (ulp_exp x = ulp_exp y)) as [Heq|Hne].
  - unfold fl_pos. rewrite Heq. pose proof (pow2_pos (ulp_exp y)) as Hp.
    apply Qmult_le_compat_r; [|lra].
    rewrite <- Zle_Qle. apply round_half_even_mono.
    apply Qmult_le_compat_r; [done|]. apply Qinv_le_0_compat. lra.
  - (* a power of two lies between them, on the grid of both *)
    assert (ulp_exp y = ilog2 y - 52) as Hey by (unfold ulp_exp in *; lia).
    assert (ilog2 x < ilog2 y) as Hlog by (unfold ulp_exp in *; lia).
    destruct (ilog2_spec x Hx) as [_ Hxhi].
    destruct (ilog2_spec y Hy) as [Hylo _].
    assert (pow2 (ilog2 x + 1) <= pow2 (ilog2 y))%Q as Hpow
      by (apply pow2_le_mono; lia).
    apply Qle_trans with (pow2 (ilog2 y)).
    + rewrite (pow2_grid (ilog2 y) (ulp_exp x)) by lia.
      apply fl_pos_le_grid.
      rewrite <- pow2_grid by lia. lra.
    + rewrite (pow2_grid (ilog2 y) (ulp_exp y)) by lia.
      apply fl_pos_ge_grid.
      rewrite <- pow2_grid by lia. lra.
Qed.

(** *** [fl] on all rationals *)

Lemma fl_pos_eq (x : Q) : (0 < x)%Q → (fl x == fl_pos x)%Q.
Proof.
  intros Hx. unfold fl. rewrite Qred_correct.
  destruct (Qcompare_spec x 0); [lra|lra|reflexivity].
Qed.

Lemma fl_neg_eq (x : Q) : (x < 0)%Q → (fl x == - fl_pos (- x))%Q.
Proof.
  intros Hx. unfold fl. rewrite Qred_correct.
  destruct (Qcompare_spec x 0); [lra|reflexivity|lra].
Qed.

Lemma fl_zero_eq (x : Q) : (x == 0)%Q → (fl x == 0)%Q.
Proof.
  intros Hx. unfold fl. rewrite Qred_correct.
  destruct (Qcompare_spec x 0); [reflexivity|lra|lra].
Qed.

Lemma fl_sign (x : Q) :
  ((0 <= x)%Q → (0 <= fl x)%Q) ∧ ((x <= 0)%Q → (fl x <= 0)%Q).
Proof.
  destruct (Q_dec x 0) as [[Hneg|Hpos]|Hz].
  - rewrite fl_neg_eq by done.
    pose proof (fl_pos_nonneg (- x)) as H. split; intros; [lra|].
    assert (0 <= fl_pos (- x))%Q by (apply H; lra). lra.
  - rewrite fl_pos_eq by done.
    pose proof (fl_pos_nonneg x). split; intros; lra.
  - rewrite fl_zero_eq by done. split; intros; lra.
Qed.

(** Rounding to binary64 is monotone. *)
Lemma fl_mono (x y : Q) : (x <= y)%Q → (fl x <= fl y)%Q.
Proof.
  intros Hxy.
  destruct (Q_dec x 0) as [[Hxneg|Hxpos]|Hxz].
  - destruct (Q_dec y 0) as [[Hyneg|Hypos]|Hyz].
    + rewrite (fl_neg_eq x), (fl_neg_eq y) by done.
      pose proof (fl_pos_mono (- y) (- x)) as H.
      assert (fl_pos (- y) <= fl_pos (- x))%Q by (apply H; lra). lra.
    + apply Qle_trans with 0%Q; [apply fl_sign; lra|apply fl_sign; lra].
    + apply Qle_trans with 0%Q; [apply fl_sign; lra|apply fl_sign; lra].
  - rewrite (fl_pos_eq x), (fl_pos_eq y) by lra. by apply fl_pos_mono.
  - apply Qle_trans with 0%Q; [apply fl_sign; lra|apply fl_sign; lra].
Qed.

(** The value of [fl] depends on the number only, not on the fraction that
    presents it. *)
Lemma fl_proper (x y : Q) : (x == y)%Q → fl x = fl y.
Proof.
  intros Hxy.
  assert (fl x == fl y)%Q as H.
  { apply Qle_antisym; apply fl_mono; lra. }
  unfold fl in *. rewrite !Qred_correct in H. by apply Qred_complete.
Qed.

(** Below [2 ^ k] the rounding error is at most [2 ^ (k - 53)]. *)
Lemma fl_error (x : Q) (k : Z) :
  -1022 ≤ k → (- pow2 k <= x <= pow2 k)%Q →
  (x - pow2 (k - 53) <= fl x <= x + pow2 (k - 53))%Q.
Proof.
  intros Hk [Hlo Hhi].
  assert (∀ z, (0 < z)%Q → (z <= pow2 k)%Q →
            (pow2 (ulp_exp z - 1) <= pow2 (k - 53))%Q) as Hulp.
  { intros z Hz Hzk. apply pow2_le_mono.
    destruct (ilog2_spec z Hz) as [Hzlo _].
    assert (ilog2 z < k + 1) by (apply pow2_lt_inv; pose proof (pow2_lt_mono k (k + 1) ltac:(lia)); lra).
    unfold ulp_exp. lia. }
  pose proof (pow2_pos (k - 53)) as Hp.
  destruct (Q_dec x 0) as [[Hneg|Hpos]|Hz].
  - rewrite fl_neg_eq by done.
    pose proof (fl_pos_error (- x)) as He. pose proof (Hulp (- x)%Q) as Hu.
    assert (pow2 (ulp_exp (- x) - 1) <= pow2 (k - 53))%Q by (apply Hu; lra).
    lra.
  - rewrite fl_pos_eq by done.
    pose proof (fl_pos_error x) as He. pose proof (Hulp x Hpos Hhi). lra.
  - rewrite fl_zero_eq by done. lra.
Qed.

(** ** Streak engine *)

Lemma elem_of_contrib_dates days d : d ∈ contrib_dates_of days ↔ active days d.
Proof.
  unfold contrib_dates_of, active.
  rewrite elem_of_list_to_set, list_elem_of_fmap.
  split.
  - intros (r & -> & Hr). apply list_elem_of_filter in Hr as [? ?]. eauto.
  - intros (r & Hr & <- & Hc). exists r. split; [done|].
    by apply list_elem_of_filter.
Qed.

Lemma active_sorted days d : active (sorted date days) d ↔ active days d.
Proof.
  unfold active. by setoid_rewrite elem_of_sorted.
Qed.

Lemma contrib_dates_sorted days :
  contrib_dates_of (sorted date days) = contrib_dates_of days.
Proof.
  apply set_eq. intros d. by rewrite !elem_of_contrib_dates, active_sorted.
Qed.

Lemma contrib_dates_empty days :
  contrib_dates_of days = ∅ ↔ Forall (λ r, ¬ contributionCount r > 0) days.
Proof.
  rewrite Forall_forall. split.
  - intros He r Hr Hc.
    assert (date r ∈ contrib_dates_of days) as Hin
      by (apply elem_of_contrib_dates; exists r; done).
    rewrite He in Hin. set_solver.
  - intros Hall. apply set_eq. intros d. rewrite elem_of_contrib_dates.
    split; [|set_solver]. intros (r & Hr & _ & Hc). by destruct (Hall r Hr).
Qed.

(** [sorted(contrib_dates)[0]] is the least date of a non-empty set. *)
Lemma min_date_spec (contrib_dates : gset Z) :
  contrib_dates ≠ ∅ →
  let min_date := sorted id (elements contrib_dates) !!! 0%nat in
  min_date ∈ contrib_dates ∧ ∀ d, d ∈ contrib_dates → min_date ≤ d.
Proof.
  intros Hne.
  pose proof (sorted_Permutation id (elements contrib_dates)) as Hperm.
  pose proof (sorted_StronglySorted id (elements contrib_dates)) as Hsort.
  destruct (sorted id (elements contrib_dates)) as [|m rest] eqn:Heq.
  - symmetry in Hperm. apply Permutation_nil_r in Hperm.
    apply elements_empty_inv in Hperm. by apply leibniz_equiv in Hperm.
  - simpl. split.
    + apply elem_of_elements. rewrite <- Hperm. left.
    + intros d Hd. apply elem_of_elements in Hd. rewrite <- Hperm in Hd.
      apply StronglySorted_inv in Hsort as [_ Hall].
      apply elem_of_cons in Hd as [->|Hd]; [lia|].
      rewrite Forall_forall in Hall. apply (Hall d Hd).
Qed.

(** *** The date walk *)

Section walk.
Variable contrib_dates : gset Z.
Variable today : Z.

(** A run that ends inside the open streak, once the streak is broken at
    [d], is that streak. *)
Lemma run_in_unique d k s e :
  0 < k → d ≤ today →
  (∀ x, d - k ≤ x < d → x ∈ contrib_dates) →
  (d - k - 1) ∉ contrib_dates → d ∉ contrib_dates →
  run_in contrib_dates today s e → d - k ≤ e → e ≤ d →
  s = d - k ∧ e = d - 1.
Proof.
  intros Hk HdT Hopen Hbefore Hd (Hse & HeT & Hall & Hs & He) Hlo Hhi.
  assert (e ≠ d) by (intros ->; apply Hd, Hall; lia).
  assert (e = d - 1) as ->.
  { destruct (decide (e = d - 1)) as [|Hne]; [done|].
    destruct He as [->|He]; [lia|]. destruct He. apply Hopen. lia. }
  split; [|done].
  destruct (Z.lt_trichotomy s (d - k)) as [Hlt|[->|Hgt]]; [|done|].
  - destruct Hbefore. apply Hall. lia.
  - destruct Hs. apply Hopen. lia.
Qed.

Lemma walk_step_inv d v :
  d ≤ today → walk_inv contrib_dates today d v →
  walk_inv contrib_dates today (d + 1) (walk_step contrib_dates d v).
Proof.
  intros HdT [Hcur Hst Hstart Hopen Hbefore Hlg Hnone Hsome Hmax].
  destruct v as [cs cst ce lg lgs lge k ks]; simpl in *.
  unfold walk_step.
  destruct (decide (d ∈ contrib_dates)) as [Hd|Hd].
  - (* the date is active: the open streak grows *)
    split; simpl; try done.
    + lia.
    + subst ks. repeat case_decide; try lia; f_equal; lia.
    + intros x Hx. destruct (decide (x = d)) as [->|]; [done|]. apply Hopen; lia.
    + by replace (d + 1 - (k + 1) - 1) with (d - k - 1) by lia.
    + intros Hpos. destruct (Hsome Hpos) as (ls & le & ? & ? & ? & ? & ?).
      exists ls, le. split_and!; try done; lia.
    + intros s e Hrun He. apply Hmax; [done|lia].
  - destruct (decide (k > 0)) as [Hk|Hk].
    + (* the open streak [d - k .. d - 1] is closed by [d] *)
      assert (run_in contrib_dates today (d - k) (d - 1)) as Hrun.
      { repeat split; try lia; try done.
        - intros x Hx. apply Hopen. lia.
        - right. by replace (d - 1 + 1) with d by lia. }
      destruct (decide (k > lg)) as [Hgt|Hle]; simpl.
      * split; simpl; try done; try lia.
        -- by replace (d + 1 - 0 - 1) with d by lia.
        -- intros _. exists (d - k), (d - 1).
           rewrite Hstart. case_decide; [lia|]. split_and!; try done; lia.
        -- intros s e Hse He.
           destruct (decide (e < d - k)) as [Hold|Hnew].
           ++ destruct (Hmax s e Hse Hold) as [Hlen _]. split; lia.
           ++ destruct (run_in_unique d k s e) as [-> ->]; try done; try lia.
              split; [lia|]. intros _ ls. rewrite Hstart.
              case_decide; [lia|]. intros [= <-]. lia.
      * split; simpl; try done; try lia.
        -- by replace (d + 1 - 0 - 1) with d by lia.
        -- intros Hpos. destruct (Hsome Hpos) as (ls & le & ? & ? & ? & ? & ?).
           exists ls, le. split_and!; try done; lia.
        -- intros s e Hse He.
           destruct (decide (e < d - k)) as [Hold|Hnew]; [by apply Hmax|].
           destruct (run_in_unique d k s e) as [-> ->]; try done; try lia.
           split; [lia|]. intros Heq ls Hls.
           destruct Hsome as (ls' & le & Hls' & _ & Hr & Hlt & _); [lia|].
           destruct Hr as (? & _). simplify_eq. lia.
    + (* no open streak, and none starts *)
      assert (k = 0) as -> by lia.
      split; simpl; try done; try lia.
      * by replace (d + 1 - 0 - 1) with d by lia.
      * intros Hpos. destruct (Hsome Hpos) as (ls & le & ? & ? & ? & ? & ?).
        exists ls, le. split_and!; try done; lia.
      * intros s e Hse He.
        destruct (decide (e = d)) as [->|Hne].
        -- destruct Hd. destruct Hse as (? & ? & Hall & _). apply Hall. lia.
        -- apply Hmax; [done|lia].
Qed.

Lemma walk_loop_inv n d v :
  Z.of_nat n = today + 1 - d → walk_inv contrib_dates today d v →
  walk_inv contrib_dates today (today + 1) (walk_loop n contrib_dates today d v).
Proof.
  revert d v. induction n as [|n IH]; intros d v Hn Hinv; simpl.
  - by replace (today + 1) with d by lia.
  - rewrite decide_True by lia.
    apply IH; [lia|]. apply walk_step_inv; [lia|done].
Qed.

(** The fuel is the number of iterations: the loop satisfies the
    equation of the [while] statement. *)
Lemma walk_dates_unfold d v :
  walk_dates contrib_dates today d v =
    if decide (d ≤ today)
    then walk_dates contrib_dates today (d + 1) (walk_step contrib_dates d v)
    else v.
Proof.
  unfold walk_dates. case_decide as Hd.
  - replace (Z.to_nat (today + 1 - d)) with (S (Z.to_nat (today + 1 - (d + 1))))
      by lia.
    simpl. by rewrite decide_True.
  - by replace (Z.to_nat (today + 1 - d)) with O by lia.
Qed.

Variable min_date : Z.
Hypothesis min_date_least : ∀ d, d ∈ contrib_dates → min_date ≤ d.

Lemma walk_inv_init : walk_inv contrib_dates today min_date L.init.
Proof.
  split; simpl; try done; try lia.
  - intros Hin. apply min_date_least in Hin. lia.
  - intros s e (Hse & _ & Hall & _) He.
    assert (e ∈ contrib_dates) as Hin by (apply Hall; lia).
    apply min_date_least in Hin. lia.
Qed.

Lemma walk_inv_future :
  today < min_date → walk_inv contrib_dates today (today + 1) L.init.
Proof.
  intros Hlt. split; simpl; try done; try lia.
  - intros Hin. apply min_date_least in Hin. lia.
  - intros s e (Hse & _ & Hall & _) He.
    assert (e ∈ contrib_dates) as Hin by (apply Hall; lia).
    apply min_date_least in Hin. lia.
Qed.

(** After the loop the invariant holds at the day after [today]. *)
Lemma walk_dates_inv :
  walk_inv contrib_dates today (today + 1)
    (walk_dates contrib_dates today min_date L.init).
Proof.
  unfold walk_dates.
  destruct (decide (min_date ≤ today)) as [Hle|Hgt].
  - apply walk_loop_inv; [lia|]. apply walk_inv_init.
  - replace (Z.to_nat (today + 1 - min_date)) with O by lia. simpl.
    apply walk_inv_future. lia.
Qed.

(** A run that reaches into the streak still open after the loop is that
    streak. *)
Lemma run_in_open k s e :
  0 < k →
  (∀ x, today + 1 - k ≤ x < today + 1 → x ∈ contrib_dates) →
  (today + 1 - k - 1) ∉ contrib_dates →
  run_in contrib_dates today s e → today + 1 - k ≤ e →
  s = today + 1 - k ∧ e = today.
Proof.
  intros Hk Hopen Hbefore (Hse & HeT & Hall & Hs & He) Hlo.
  assert (e = today) as ->.
  { destruct He as [->|He]; [done|].
    destruct (decide (e = today)) as [|Hne]; [done|].
    destruct He. apply Hopen. lia. }
  split; [|done].
  destruct (Z.lt_trichotomy s (today + 1 - k)) as [Hlt|[->|Hgt]]; [|done|].
  - destruct Hbefore. apply Hall. lia.
  - destruct Hs. apply Hopen. lia.
Qed.

Lemma handle_ongoing_spec v :
  walk_inv contrib_dates today (today + 1) v →
  final_spec contrib_dates today (handle_ongoing contrib_dates today v).
Proof.
  intros [Hcur Hst Hstart Hopen Hbefore Hlg Hnone Hsome Hmax].
  destruct v as [cs cst ce lg lgs lge k ks]; simpl in *.
  destruct Hcur as (-> & -> & ->).
  unfold handle_ongoing.
  destruct (decide (k > 0)) as [Hk|Hk].
  - assert (today ∈ contrib_dates) as HT by (apply Hopen; lia).
    assert (run_in contrib_dates today (today + 1 - k) today) as Hrun.
    { split_and!; try lia; try done.
      intros x Hx. apply Hopen. lia. }
    rewrite Hstart. rewrite (decide_False (P := k = 0)) by lia.
    destruct (decide (k > lg)) as [Hgt|Hle]; simpl;
      rewrite (decide_True (P := today ∈ contrib_dates ∨ _)) by (by left);
      rewrite !(decide_True (P := today ∈ contrib_dates)) by done.
    + split; simpl; try done; try lia.
      * intros _. exists (today + 1 - k), today. split_and!; try done; lia.
      * intros s e Hse.
        destruct (decide (e < today + 1 - k)) as [Hold|Hnew].
        -- destruct (Hmax s e Hse Hold) as [Hlen _]. split; lia.
        -- destruct (run_in_open k s e) as [-> ->]; try done; try lia.
           split; [lia|]. intros _ ls [= <-]. lia.
      * intros s Hs.
        destruct (run_in_open k s today) as [-> _]; try done; try lia.
        split_and!; [lia|done|done].
    + split; simpl; try done; try lia.
      * intros Hpos. destruct (Hsome Hpos) as (ls & le & ? & ? & ? & ? & ?).
        exists ls, le. split_and!; try done; lia.
      * intros s e Hse.
        destruct (decide (e < today + 1 - k)) as [Hold|Hnew]; [by apply Hmax|].
        destruct (run_in_open k s e) as [-> ->]; try done; try lia.
        split; [lia|]. intros Heq ls Hls.
        destruct Hsome as (ls' & le & Hls' & _ & Hr & Hlt & _); [lia|].
        destruct Hr as (? & _). simplify_eq. lia.
      * intros s Hs.
        destruct (run_in_open k s today) as [-> _]; try done; try lia.
        split_and!; [lia|done|done].
  - assert (k = 0) as -> by lia.
    assert (today ∉ contrib_dates) as HT
      by (by replace today with (today + 1 - 0 - 1) by lia).
    split; simpl; try done; try lia.
    + intros Hpos. destruct (Hsome Hpos) as (ls & le & ? & ? & ? & ? & ?).
      exists ls, le. split_and!; try done; lia.
    + intros s e Hse. apply Hmax; [done|]. destruct Hse as (? & ? & _). lia.
    + (* such a run would contain [today] *)
      intros s (Hse & _ & Hall & _). destruct HT. apply Hall. lia.
Qed.

Lemma walk_final_spec :
  final_spec contrib_dates today (handle_ongoing contrib_dates today
                (walk_dates contrib_dates today min_date L.init)).
Proof. apply handle_ongoing_spec, walk_dates_inv. Qed.
End walk.

(** *** The result of [calculate_streaks] *)

Lemma streak_run_run_in days today s e :
  streak_run days today s e ↔ run_in (contrib_dates_of days) today s e.
Proof.
  unfold streak_run, run_in.
  by setoid_rewrite elem_of_contrib_dates.
Qed.

Lemma calculate_streaks_empty e days :
  contrib_dates_of days = ∅ →
  calculate_streaks e days = Streaks 0 0 None None 0 None None.
Proof.
  intros He. unfold calculate_streaks.
  rewrite contrib_dates_sorted. by rewrite decide_True.
Qed.

Lemma calculate_streaks_nonempty e days :
  contrib_dates_of days ≠ ∅ →
  ∃ v, final_spec (contrib_dates_of days) (today e) v ∧
       calculate_streaks e days =
         {| total := py_sum (contributionCount <$> days);
            current := L.current_streak v;
            current_start := L.current_start v;
            current_end := L.current_end v;
            longest := L.longest_streak v;
            longest_start := L.longest_start v;
            longest_end := L.longest_end v |}.
Proof.
  intros Hne. unfold calculate_streaks.
  rewrite contrib_dates_sorted. rewrite decide_False by done.
  eexists. split.
  - apply walk_final_spec. by apply min_date_spec.
  - f_equal. apply py_sum_Permutation, fmap_Permutation, sorted_Permutation.
Qed.

(** With no active date there is no run. *)
Lemma run_in_empty today s e : ¬ run_in ∅ today s e.
Proof. intros (Hse & _ & Hall & _). specialize (Hall s). set_solver by lia. Qed.

(** The locals are read off the result; this states [final_spec] on the
    returned dict, for every input. *)
Lemma calculate_streaks_spec e days :
  let r := calculate_streaks e days in
  final_spec (contrib_dates_of days) (today e)
    (L.Mk (current r) (current_start r) (current_end r)
          (longest r) (longest_start r) (longest_end r) 0 None).
Proof.
  destruct (decide (contrib_dates_of days = ∅)) as [He|Hne].
  - rewrite (calculate_streaks_empty _ _ He). simpl. rewrite He.
    split; simpl; try done.
    + intros s e' Hr. by destruct (run_in_empty _ _ _ Hr).
    + intros s Hr. by destruct (run_in_empty _ _ _ Hr).
  - destruct (calculate_streaks_nonempty e days Hne) as (v & Hv & ->). simpl.
    destruct Hv. by split.
Qed.

(** Whenever [today] has no positive count the result reports no current
    streak: the walk includes [today], so an inactive [today] closes the
    open run before the code after the loop looks at it. *)
Lemma current_zero_when_today_inactive e days :
  ¬ active days (today e) →
  let r := calculate_streaks e days in
  current r = 0 ∧ current_start r = None ∧ current_end r = None.
Proof.
  intros Hin r.
  apply (fin_inactive _ _ _ (calculate_streaks_spec e days)).
  by rewrite elem_of_contrib_dates.
Qed.

(** When [today] is active the current streak is the run that ends
    [today]. *)
Lemma current_is_run_ending_today e days s :
  streak_run days (today e) s (today e) →
  let r := calculate_streaks e days in
  current r = today e - s + 1 ∧
  current_start r = Some s ∧ current_end r = Some (today e).
Proof.
  intros Hrun r.
  apply (fin_current _ _ _ (calculate_streaks_spec e days)).
  by apply streak_run_run_in.
Qed.

(** The specification's worked cases.  A single active day equal to
    [today]; ten consecutive days ending [today]; five active days followed
    by five inactive ones. *)
Example single_day_today :
  calculate_streaks (Env 100) [Day 100 3] =
  Streaks 3 1 (Some 100) (Some 100) 1 (Some 100) (Some 100).
Proof. vm_compute. reflexivity. Qed.

Example ten_consecutive_days :
  calculate_streaks (Env 109) ((λ d, Day d 1) <$> seqZ 100 10) =
  Streaks 10 10 (Some 100) (Some 109) 10 (Some 100) (Some 109).
Proof. vm_compute. reflexivity. Qed.

Example five_days_then_gap :
  calculate_streaks (Env 109)
    (((λ d, Day d 2) <$> seqZ 100 5) ++ ((λ d, Day d 0) <$> seqZ 105 5)) =
  Streaks 10 0 None None 5 (Some 100) (Some 104).
Proof. vm_compute. reflexivity. Qed.

(** C1, at the input the claim describes: one active day, yesterday, and
    nothing today.  The claim expects current = 1 ending yesterday; the code
    returns current = 0 with no dates (and longest = 1). *)
Example C1_yesterday_only_gives_no_current_streak :
  calculate_streaks (Env 10) [Day 9 1] =
  {| total := 1;
     current := 0; current_start := None; current_end := None;
     longest := 1; longest_start := Some 9; longest_end := Some 9 |}.
Proof. vm_compute. reflexivity. Qed.

(** C2: for every list of day records and every date of today, the result
    has longest >= current. *)
Theorem C2_longest_ge_current e days :
  (longest (calculate_streaks e days) >= current (calculate_streaks e days))%Z.
Proof.
  pose proof (fin_le _ _ _ (calculate_streaks_spec e days)) as H.
  simpl in H. lia.
Qed.

(** C4: when a run found by the walk has the greatest length, and no run of
    that length starts earlier, then it is the reported longest streak, with
    its length, start date and end date: a later run of equal length does
    not replace it. *)
Theorem C4_longest_is_first_maximal_run e days s1 e1 :
  streak_run days (today e) s1 e1 →
  (∀ s2 e2, streak_run days (today e) s2 e2 →
     e2 - s2 < e1 - s1 ∨ (e2 - s2 = e1 - s1 ∧ s1 ≤ s2)) →
  let r := calculate_streaks e days in
  longest r = e1 - s1 + 1 ∧ longest_start r = Some s1 ∧ longest_end r = Some e1.
Proof.
  intros Hrun Hfirst r.
  destruct (calculate_streaks_spec e days) as [Hlg Hnone Hsome Hmax _ _ _].
  fold r in Hlg, Hnone, Hsome, Hmax. simpl in *.
  apply streak_run_run_in in Hrun.
  destruct (Hmax s1 e1 Hrun) as [Hlen Htie].
  assert (s1 ≤ e1) by (by destruct Hrun).
  destruct Hsome as (ls & le & Hls & Hle & Hr & Hlen'); [lia|].
  apply streak_run_run_in in Hr.
  destruct (Hfirst ls le Hr) as [Hlt|[Heq Hge]]; [lia|].
  assert (e1 - s1 + 1 = longest r) as Hlong by lia.
  specialize (Htie Hlong ls Hls).
  assert (ls = s1) as -> by lia.
  assert (le = e1) as -> by lia.
  by rewrite Hls, Hle.
Qed.

(** C8: a series without a positive count, the empty series included,
    gives the zero result with no date ranges. *)
Theorem C8_no_active_day_gives_zero_result e days :
  Forall (λ r, ¬ contributionCount r > 0) days →
  calculate_streaks e days =
  {| total := 0;
     current := 0; current_start := None; current_end := None;
     longest := 0; longest_start := None; longest_end := None |}.
Proof.
  intros Hall. apply calculate_streaks_empty. by apply contrib_dates_empty.
Qed.

Lemma C8_witness :
  calculate_streaks (Env 10) [] = Streaks 0 0 None None 0 None None ∧
  calculate_streaks (Env 10) [Day 8 0; Day 9 0] = Streaks 0 0 None None 0 None None.
Proof.
  split.
  - apply (C8_no_active_day_gives_zero_result (Env 10) []). constructor.
  - apply (C8_no_active_day_gives_zero_result (Env 10) [Day 8 0; Day 9 0]).
    repeat constructor; simpl; lia.
Defined.

(** Membership of a date in a concrete series. *)
Lemma active_cons r days d :
  active (r :: days) d ↔ (date r = d ∧ contributionCount r > 0) ∨ active days d.
Proof.
  unfold active. split.
  - intros (r' & Hin & Hd & Hc). apply elem_of_cons in Hin as [->|Hin]; eauto.
  - intros [[Hd Hc]|(r' & Hin & Hd & Hc)].
    + exists r. split; [left|done].
    + exists r'. split; [by right|done].
Qed.

Lemma active_nil d : active [] d ↔ False.
Proof. split; [|done]. intros (r & Hin & _). by apply elem_of_nil in Hin. Qed.

(** Two runs of two days, [1..2] and [4..5]: the first is reported. *)
Lemma C4_witness :
  let r := calculate_streaks (Env 6) [Day 1 3; Day 2 1; Day 4 1; Day 5 2] in
  longest r = 2 ∧ longest_start r = Some 1 ∧ longest_end r = Some 2.
Proof.
  apply (C4_longest_is_first_maximal_run (Env 6)
           [Day 1 3; Day 2 1; Day 4 1; Day 5 2] 1 2).
  - unfold streak_run. simpl. split_and!; try lia.
    + intros x Hx. rewrite !active_cons, active_nil. simpl. lia.
    + rewrite !active_cons, active_nil. simpl. lia.
    + right. rewrite !active_cons, active_nil. simpl. lia.
  - intros s2 e2 (Hse & HeT & Hall & Hs & He). simpl in *.
    pose proof (Hall s2 ltac:(lia)) as Hs2.
    pose proof (Hall e2 ltac:(lia)) as He2.
    pose proof (Hall 3) as H3.
    rewrite !active_cons, active_nil in Hs, He, Hs2, He2, H3. simpl in *.
    lia.
Defined.

(** ** Calendar normaliser: the day records [main] hands over *)

Lemma main_all_days_concat batches : main_all_days batches = concat batches.
Proof.
  unfold main_all_days.
  assert (∀ acc, foldl (λ all_days days : list day, all_days ++ days) acc batches
                 = acc ++ concat batches) as H.
  { induction batches as [|b bs IH]; intros acc; simpl.
    - by rewrite app_nil_r.
    - by rewrite IH, app_assoc. }
  apply H.
Qed.

Lemma py_sum_nonpos xs : Forall (λ x, x = 0) xs → py_sum xs = 0.
Proof.
  induction 1 as [|x xs -> _ IH]; [done|]. rewrite py_sum_cons. lia.
Qed.

(** The total that is reported is the sum over every record handed in. *)
Lemma total_is_sum_of_all_records e days :
  Forall (λ r, 0 ≤ contributionCount r) days →
  total (calculate_streaks e days) = py_sum (contributionCount <$> days).
Proof.
  intros Hnn.
  destruct (decide (contrib_dates_of days = ∅)) as [He|Hne].
  - rewrite (calculate_streaks_empty _ _ He). simpl. symmetry.
    apply py_sum_nonpos. apply contrib_dates_empty in He.
    apply Forall_fmap. rewrite Forall_forall in *.
    intros r Hr. specialize (Hnn r Hr). specialize (He r Hr). simpl in *. lia.
  - by destruct (calculate_streaks_nonempty e days Hne) as (v & _ & ->).
Qed.

(** C3, as the code has it: the series the streak computation works on is
    the concatenation of all fetched batches, sorted ascending by date, with
    every record kept; nothing removes a date fetched twice.  The reported
    total is the sum of the counts of all fetched records (counts being
    non-negative).  When no date occurs twice over the batches, the series
    has one record per date. *)
Theorem C3_merged_series_keeps_every_record e batches :
  let series := sorted date (main_all_days batches) in
  series ≡ₚ concat batches ∧
  StronglySorted (λ a b, date a ≤ date b) series ∧
  (Forall (λ r, 0 ≤ contributionCount r) (concat batches) →
   total (main_streaks e batches) = py_sum (contributionCount <$> concat batches)) ∧
  (NoDup (date <$> concat batches) → NoDup (date <$> series)).
Proof.
  simpl. unfold main_streaks. rewrite main_all_days_concat. split_and!.
  - apply sorted_Permutation.
  - apply (sorted_StronglySorted date).
  - apply total_is_sum_of_all_records.
  - intros Hnd. by rewrite sorted_Permutation.
Qed.

Lemma C3_witness :
  let batches := [[Day 1 1; Day 2 0]; [Day 4 2; Day 3 5]] in
  total (main_streaks (Env 4) batches) = 8 ∧
  NoDup (date <$> sorted date (main_all_days batches)).
Proof.
  intros batches.
  destruct (C3_merged_series_keeps_every_record (Env 4) batches)
    as (_ & _ & Htotal & Hnodup).
  split.
  - rewrite Htotal; [reflexivity|]. repeat constructor; simpl; lia.
  - apply Hnodup. simpl.
    repeat (apply NoDup_cons_2; [rewrite ?elem_of_cons, elem_of_nil; lia|]).
    apply NoDup_nil_2.
Defined.

(** C3 as stated fails: two batches that both hold date 5 leave two
    records for that date in the series, and the total counts it twice. *)
Lemma C3_overlapping_batches_keep_duplicates :
  let batches := [[Day 5 1]; [Day 5 1]] in
  sorted date (main_all_days batches) = [Day 5 1; Day 5 1] ∧
  ¬ NoDup (date <$> sorted date (main_all_days batches)) ∧
  total (main_streaks (Env 5) batches) = 2.
Proof.
  split_and!.
  - reflexivity.
  - simpl. intros Hnd. apply NoDup_cons in Hnd as [Hin _]. apply Hin. left.
  - vm_compute. reflexivity.
Qed.

(** ** Language aggregator *)

Lemma collect_lang_sizes_flat repos :
  collect_lang_sizes repos = foldl add_to [] (all_edges repos).
Proof.
  unfold collect_lang_sizes, all_edges. generalize (@nil (string * Data.t)).
  induction repos as [|repo repos IH]; intros acc; simpl; [done|].
  by rewrite foldl_app, IH.
Qed.

Lemma update_keys name edge lang_sizes :
  (update name edge lang_sizes).*1 =
    if decide (name ∈ lang_sizes.*1) then lang_sizes.*1 else lang_sizes.*1 ++ [name].
Proof.
  induction lang_sizes as [|[k data] rest IH]; csimpl; [done|].
  destruct (decide (k = name)) as [->|Hne]; csimpl.
  - rewrite decide_True; [done|]. left.
  - rewrite IH. destruct (decide (name ∈ rest.*1)) as [Hin|Hnin].
    + rewrite decide_True; [done|]. by right.
    + rewrite decide_False; [done|]. rewrite elem_of_cons.
      intros [Heq|Hin]; [congruence|done].
Qed.

Lemma update_sizes name edge lang_sizes :
  py_sum (map (λ v, Data.size v.2) (update name edge lang_sizes)) =
  py_sum (map (λ v, Data.size v.2) lang_sizes) + Edge.size edge.
Proof.
  induction lang_sizes as [|[k data] rest IH]; simpl.
  - rewrite py_sum_cons, !py_sum_nil. simpl. lia.
  - destruct (decide (k = name)); simpl; rewrite !py_sum_cons; simpl; lia.
Qed.

Lemma elem_of_update name edge lang_sizes k data :
  NoDup lang_sizes.*1 →
  (k, data) ∈ update name edge lang_sizes →
  (k ≠ name ∧ (k, data) ∈ lang_sizes) ∨
  (k = name ∧ ∃ old, data = add_edge edge old ∧
     ((name, old) ∈ lang_sizes ∨ ((name ∉ lang_sizes.*1) ∧ old = Data.fresh))).
Proof.
  induction lang_sizes as [|[k0 d0] rest IH]; simpl; intros Hnd Hin.
  - apply list_elem_of_singleton in Hin as [= -> ->].
    right. split; [done|]. exists Data.fresh. split; [done|].
    right. split; [apply not_elem_of_nil|done].
  - apply NoDup_cons in Hnd as [Hk0 Hnd].
    destruct (decide (k0 = name)) as [->|Hne].
    + apply elem_of_cons in Hin as [[= -> ->]|Hin].
      * right. split; [done|]. exists d0. split; [done|]. left. left.
      * left. split; [|by right].
        intros ->. apply Hk0. apply list_elem_of_fmap. by exists (name, data).
    + apply elem_of_cons in Hin as [[= -> ->]|Hin].
      * left. split; [done|left].
      * destruct (IH Hnd Hin) as [[? ?]|(-> & old & -> & Hold)].
        -- left. split; [done|by right].
        -- right. split; [done|]. exists old. split; [done|].
           destruct Hold as [?|[? ->]]; [left; by right|right].
           split; [|done]. rewrite elem_of_cons.
           intros [Heq|Hin']; [congruence|done].
Qed.

Lemma filter_none {A} (P : A → Prop) `{!∀ x, Decision (P x)} (l : list A) :
  Forall (λ x, ¬ P x) l → filter P l = [].
Proof.
  induction 1 as [|x l Hx _ IH]; [done|]. by rewrite filter_cons_False.
Qed.

(** What the two nested loops leave in [lang_sizes]. *)
Lemma foldl_add_to_spec edges :
  let lang_sizes := foldl add_to [] edges in
  NoDup lang_sizes.*1 ∧
  (∀ name, name ∈ lang_sizes.*1 ↔ ∃ edge, edge ∈ edges ∧ edge_name edge = name) ∧
  (∀ name data, (name, data) ∈ lang_sizes →
     Data.size data =
       py_sum (Edge.size <$> filter (λ edge, edge_name edge = name) edges)) ∧
  py_sum (map (λ v, Data.size v.2) lang_sizes) = py_sum (Edge.size <$> edges).
Proof.
  induction edges as [|edge edges IH] using rev_ind; simpl.
  - split_and!; try done.
    + constructor.
    + intros name. rewrite elem_of_nil. split; [done|].
      intros (e & He & _). by apply elem_of_nil in He.
    + intros name data Hin. by apply elem_of_nil in Hin.
  - rewrite foldl_app. simpl. simpl in IH.
    destruct IH as (Hnd & Hkeys & Hsize & Hsum).
    set (lang_sizes := foldl add_to [] edges) in *.
    unfold add_to at 1 2 3 4. split_and!.
    + rewrite update_keys. case_decide as Hin; [done|].
      apply NoDup_app. split_and!; [done| |apply NoDup_singleton].
      intros x Hx Hx'. apply list_elem_of_singleton in Hx' as ->. done.
    + intros name. rewrite update_keys.
      setoid_rewrite elem_of_app. setoid_rewrite list_elem_of_singleton.
      case_decide as Hin.
      * rewrite Hkeys. split.
        -- intros (e & He & Hn). exists e. split; [by left|done].
        -- intros (e & [He| ->] & Hn); [by exists e|].
           apply Hkeys. by rewrite <- Hn.
      * rewrite elem_of_app, list_elem_of_singleton, Hkeys. split.
        -- intros [(e & He & Hn)| ->].
           ++ exists e. split; [by left|done].
           ++ exists edge. split; [by right|done].
        -- intros (e & [He| ->] & Hn); [left; by exists e|by right].
    + intros name data Hin.
      rewrite filter_app, fmap_app, py_sum_app.
      apply elem_of_update in Hin; [|done].
      destruct Hin as [[Hne Hin]|(-> & old & -> & Hold)].
      * rewrite (Hsize _ _ Hin).
        rewrite (filter_none _ [edge]); [cbn; lia|].
        repeat constructor. congruence.
      * rewrite filter_cons_True by done. simpl. rewrite py_sum_cons, py_sum_nil.
        destruct Hold as [Hold|[Hnew ->]].
        -- rewrite (Hsize _ _ Hold). lia.
        -- rewrite (filter_none _ edges); [cbn; lia|].
           apply Forall_forall. intros e He Hn. apply Hnew, Hkeys. eauto.
    + rewrite update_sizes, Hsum, fmap_app, py_sum_app. simpl.
      rewrite py_sum_cons, py_sum_nil. lia.
Qed.

(** *** Float arithmetic of the percentages *)

Lemma fl_0 : fl 0 = 0%Q.
Proof. vm_compute. reflexivity. Qed.

Lemma fl_1 : fl 1 = 1%Q.
Proof. vm_compute. reflexivity. Qed.

Lemma fl_100 : fl 100 = 100%Q.
Proof. vm_compute. reflexivity. Qed.

Lemma float_100 : float 100 = 100%Q.
Proof. vm_compute. reflexivity. Qed.

Lemma inject_Z_pos (z : Z) : 0 < z → (0 < inject_Z z)%Q.
Proof. intros H. change 0%Q with (inject_Z 0). by rewrite <- Zlt_Qlt. Qed.

Lemma truediv_mono (a b total : Z) :
  0 < total → a ≤ b → (truediv a total <= truediv b total)%Q.
Proof.
  intros Ht Hab. unfold truediv. apply fl_mono.
  apply Qmult_le_compat_r; [by rewrite <- Zle_Qle|].
  apply Qinv_le_0_compat, Qlt_le_weak, inject_Z_pos, Ht.
Qed.

Lemma truediv_0 (total : Z) : truediv 0 total = 0%Q.
Proof.
  unfold truediv. rewrite <- fl_0. apply fl_proper.
  unfold Qdiv. change (inject_Z 0) with 0%Q. ring.
Qed.

Lemma truediv_diag (total : Z) : 0 < total → truediv total total = 1%Q.
Proof.
  intros Ht. unfold truediv. rewrite <- fl_1. apply fl_proper.
  pose proof (inject_Z_pos total Ht). field. lra.
Qed.

Lemma pct_nonpos (size total : Z) : total ≤ 0 → pct size total = 0%Q.
Proof. intros Ht. unfold pct. by rewrite decide_False by lia. Qed.

Lemma pct_pos (size total : Z) :
  0 < total → pct size total = fl (truediv size total * 100).
Proof.
  intros Ht. unfold pct. rewrite decide_True by lia.
  unfold fmul. by rewrite float_100.
Qed.

(** A larger size never gets a smaller percentage. *)
Lemma pct_mono (size1 size2 total : Z) :
  size1 ≤ size2 → (pct size1 total <= pct size2 total)%Q.
Proof.
  intros Hle. destruct (decide (0 < total)) as [Ht|Ht].
  - rewrite !pct_pos by done. apply fl_mono.
    apply Qmult_le_compat_r; [by apply truediv_mono|lra].
  - rewrite !pct_nonpos by lia. lra.
Qed.

Lemma round2_mono (x y : Q) : (x <= y)%Q → (round2 x <= round2 y)%Q.
Proof.
  intros Hxy. unfold round2. apply fl_mono.
  apply Qmult_le_compat_r; [|apply Qinv_le_0_compat; lra].
  rewrite <- Zle_Qle. apply round_half_even_mono. lra.
Qed.

Lemma round2_0 : round2 0 = 0%Q.
Proof. vm_compute. reflexivity. Qed.

Lemma round2_100 : round2 100 = 100%Q.
Proof. vm_compute. reflexivity. Qed.

(** The model on values known from CPython: the double nearest to 0.1; a
    decimal tie at an exactly representable value goes to the even digit;
    38.275, 61.725, 0.005 and 99.995 are not representable, and the doubles
    the division and the multiplication produce for them round to 38.27,
    61.72, 0.01 and 100.0. *)
Lemma binary64_examples :
  fl 0.1 = (3602879701896397 # 36028797018963968)%Q ∧
  round2 0.125 = fl 0.12 ∧
  round2 (pct 7655 20000) = fl 38.27 ∧
  round2 (pct 12345 20000) = fl 61.72 ∧
  round2 (pct 1 20000) = fl 0.01 ∧
  round2 (pct 19999 20000) = 100%Q.
Proof. split_and!; vm_compute; reflexivity. Qed.

Lemma pct_range (size total : Z) :
  0 ≤ size ≤ total → (0 <= pct size total <= 100)%Q.
Proof.
  intros [H0 Ht].
  destruct (decide (0 < total)) as [Hpos|Hnpos]; [|rewrite pct_nonpos by lia; lra].
  pose proof (pct_mono 0 size total H0) as Hlo.
  pose proof (pct_mono size total total Ht) as Hhi.
  rewrite (pct_pos 0), truediv_0 in Hlo by done.
  rewrite (pct_pos total), truediv_diag in Hhi by done.
  rewrite (fl_proper (0 * 100) 0), fl_0 in Hlo by ring.
  rewrite (fl_proper (1 * 100) 100), fl_100 in Hhi by ring.
  done.
Qed.

(** *** How far the reported percentage is from the exact one *)

Lemma pow2_m44 : (pow2 (-44) == 1 # 17592186044416)%Q.
Proof. reflexivity. Qed.

Lemma pow2_m46 : (pow2 (7 - 53) == 1 # 70368744177664)%Q.
Proof. reflexivity. Qed.

Lemma pow2_m53 : (pow2 (0 - 53) == 1 # 9007199254740992)%Q.
Proof. reflexivity. Qed.

Lemma exact_pct_eq (size total : Z) :
  (exact_pct size total == inject_Z size / inject_Z total * 100)%Q.
Proof. unfold exact_pct, Qdiv. ring. Qed.

Lemma exact_pct_range (size total : Z) :
  0 ≤ size ≤ total → 0 < total →
  (0 <= inject_Z size / inject_Z total <= 1)%Q.
Proof.
  intros [H0 Hle] Ht. pose proof (inject_Z_pos total Ht) as Hp. split.
  - apply Qle_shift_div_l; [done|]. rewrite Qmult_0_l.
    change 0%Q with (inject_Z 0). by rewrite <- Zle_Qle.
  - apply Qle_shift_div_r; [done|]. rewrite Qmult_1_l. by rewrite <- Zle_Qle.
Qed.

(** [round(x, 2)] of a float between 0 and 100 lies within 0.005 of [x], up
    to the rounding of the read back. *)
Lemma round2_error (x : Q) :
  (0 <= x <= 100)%Q →
  (x - (1 # 200) - pow2 (7 - 53) <= round2 x <= x + (1 # 200) + pow2 (7 - 53))%Q.
Proof.
  intros [H0 H100]. unfold round2.
  pose proof (round_half_even_le (x * 100)) as Hle.
  pose proof (round_half_even_ge (x * 100)) as Hge.
  pose proof (round_half_even_mono (inject_Z 0) (x * 100)) as Hr0.
  pose proof (round_half_even_mono (x * 100) (inject_Z 10000)) as Hr1.
  rewrite round_half_even_Z in Hr0, Hr1.
  assert (0 ≤ round_half_even (x * 100) ≤ 10000) as [Hz0 Hz1].
  { split; [apply Hr0|apply Hr1]; change (inject_Z 10000) with 10000%Q;
      change (inject_Z 0) with 0%Q; lra. }
  rewrite Zle_Qle in Hz0, Hz1.
  change (inject_Z 0) with 0%Q in Hz0. change (inject_Z 10000) with 10000%Q in Hz1.
  set (r := inject_Z (round_half_even (x * 100))) in *.
  assert (r / 100 == r * (1 # 100))%Q as Hdiv by (unfold Qdiv; reflexivity).
  set (d := (r / 100)%Q) in *.
  pose proof (fl_error d 7) as He. change (pow2 7) with 128%Q in He.
  destruct He as [He1 He2]; [lia|lra|]. lra.
Qed.

(** The percentage the code reports lies within [rounding_slack] of the
    exact percentage. *)
Lemma reported_pct_error (size total : Z) :
  0 ≤ size ≤ total → 0 < total →
  (exact_pct size total - rounding_slack
   <= round2 (pct size total)
   <= exact_pct size total + rounding_slack)%Q.
Proof.
  intros Hsize Ht.
  destruct (exact_pct_range size total Hsize Ht) as [Hx0 Hx1].
  destruct (pct_range size total Hsize) as [Hp0 Hp100].
  pose proof (round2_error _ (conj Hp0 Hp100)) as Hr.
  rewrite pct_pos in * by done.
  (* the division *)
  pose proof (fl_error (inject_Z size / inject_Z total) 0) as Hq.
  change (pow2 0) with 1%Q in Hq. fold (truediv size total) in Hq.
  destruct Hq as [Hq1 Hq2]; [lia|lra|].
  pose proof (truediv_mono 0 size total Ht (proj1 Hsize)) as Hq0.
  pose proof (truediv_mono size total total Ht (proj2 Hsize)) as Hq3.
  rewrite truediv_0 in Hq0. rewrite truediv_diag in Hq3 by done.
  (* the multiplication *)
  pose proof (fl_error (truediv size total * 100) 7) as Hm.
  change (pow2 7) with 128%Q in Hm.
  destruct Hm as [Hm1 Hm2]; [lia|lra|].
  unfold rounding_slack. rewrite exact_pct_eq.
  rewrite pow2_m44. rewrite pow2_m46 in *. rewrite pow2_m53 in *.
  lra.
Qed.

(** *** Exact sums *)

Lemma fold_left_Qplus_acc (xs : list Q) (a : Q) :
  (fold_left Qplus xs a == a + sumQ xs)%Q.
Proof.
  unfold sumQ. revert a.
  induction xs as [|x xs IH]; intros a; simpl; [ring|].
  rewrite (IH (a + x)%Q), (IH (0 + x)%Q). ring.
Qed.

Lemma sumQ_cons (x : Q) (xs : list Q) : (sumQ (x :: xs) == x + sumQ xs)%Q.
Proof.
  unfold sumQ at 1. simpl. rewrite fold_left_Qplus_acc. ring.
Qed.

(** The exact percentages of a list of sizes add up to the exact percentage
    of their sum. *)
Lemma sum_exact_pct (sizes : list Z) (total : Z) :
  0 < total →
  (sumQ ((λ size, exact_pct size total) <$> sizes)
   == exact_pct (py_sum sizes) total)%Q.
Proof.
  intros Ht. pose proof (inject_Z_pos total Ht) as Hp.
  induction sizes as [|size sizes IH]; csimpl.
  - unfold exact_pct. change (inject_Z (py_sum [])) with 0%Q.
    change (sumQ []) with 0%Q. field. lra.
  - rewrite sumQ_cons, IH, py_sum_cons. unfold exact_pct.
    rewrite inject_Z_plus. field. lra.
Qed.

(** *** The ranked list *)

Lemma collect_lang_sizes_spec repos :
  let lang_sizes := collect_lang_sizes repos in
  NoDup lang_sizes.*1 ∧
  (∀ name, name ∈ lang_sizes.*1 ↔
     ∃ edge, edge ∈ all_edges repos ∧ edge_name edge = name) ∧
  (∀ name data, (name, data) ∈ lang_sizes →
     Data.size data = language_size repos name) ∧
  py_sum (map (λ v, Data.size v.2) lang_sizes) = total_size repos.
Proof.
  simpl. rewrite collect_lang_sizes_flat. apply foldl_add_to_spec.
Qed.

Lemma calculate_language_stats_eq repos :
  calculate_language_stats repos =
  share (total_size repos) <$>
    sorted (λ x, - Data.size x.2) (collect_lang_sizes repos).
Proof.
  unfold calculate_language_stats.
  destruct (collect_lang_sizes_spec repos) as (_ & _ & _ & ->).
  induction (sorted _ _) as [|[name data] items IH]; simpl; [done|].
  f_equal. apply IH.
Qed.

Lemma elem_of_calculate_language_stats repos lang :
  lang ∈ calculate_language_stats repos ↔
  ∃ item, lang = share (total_size repos) item ∧ item ∈ collect_lang_sizes repos.
Proof.
  rewrite calculate_language_stats_eq, list_elem_of_fmap.
  by setoid_rewrite elem_of_sorted.
Qed.

Lemma names_of_calculate_language_stats repos :
  Lang.name <$> calculate_language_stats repos ≡ₚ (collect_lang_sizes repos).*1.
Proof.
  rewrite calculate_language_stats_eq, <- list_fmap_compose.
  rewrite sorted_Permutation. done.
Qed.

Lemma py_sum_filter_le (P : Edge.t → Prop) `{!∀ x, Decision (P x)} (edges : list Edge.t) :
  Forall (λ edge, 0 ≤ Edge.size edge) edges →
  0 ≤ py_sum (Edge.size <$> filter P edges) ≤ py_sum (Edge.size <$> edges).
Proof.
  induction 1 as [|edge edges Hx _ IH]; [done|].
  rewrite filter_cons. case_decide; csimpl; rewrite !py_sum_cons; lia.
Qed.

(** No language is larger than all languages together, when no byte size is
    negative. *)
Lemma language_size_range repos name :
  Forall (λ edge, 0 ≤ Edge.size edge) (all_edges repos) →
  0 ≤ language_size repos name ≤ total_size repos.
Proof. intros Hnn. by apply py_sum_filter_le. Qed.

Lemma percentage_of_entry repos lang :
  lang ∈ calculate_language_stats repos →
  Lang.percentage lang
  = round2 (pct (language_size repos (Lang.name lang)) (total_size repos)).
Proof.
  intros (item & -> & Hin)%elem_of_calculate_language_stats.
  destruct (collect_lang_sizes_spec repos) as (_ & _ & Hsize & _).
  destruct item as [name data]. simpl. by rewrite (Hsize _ _ Hin).
Qed.

(** C6, as the code has it: the aggregation has one entry per language seen
    and sums each language's byte sizes over all repositories.  The
    percentage of an entry is 100 x size / total size rounded to two
    decimals: it is the float nearest to a whole number of hundredths and
    lies within 0.005, plus the float roundings, of the exact percentage.
    It is 0 when the total size is 0: no division is attempted.  On the
    example, B is combined to 200 and the percentages are A = 60 and
    B = 40. *)
Theorem C6_language_percentages repos :
  let langs := calculate_language_stats repos in
  let total := total_size repos in
  NoDup (Lang.name <$> langs) ∧
  (∀ name, name ∈ (Lang.name <$> langs) ↔
     ∃ edge, edge ∈ all_edges repos ∧ edge_name edge = name) ∧
  (∀ name data, (name, data) ∈ collect_lang_sizes repos →
     Data.size data = language_size repos name) ∧
  (∀ lang, lang ∈ langs →
     ∃ hundredths : Z, Lang.percentage lang = fl (inject_Z hundredths / 100)) ∧
  (Forall (λ edge, 0 ≤ Edge.size edge) (all_edges repos) → 0 < total →
   ∀ lang, lang ∈ langs →
     (exact_pct (language_size repos (Lang.name lang)) total - rounding_slack
      <= Lang.percentage lang
      <= exact_pct (language_size repos (Lang.name lang)) total + rounding_slack)%Q) ∧
  (total ≤ 0 → ∀ lang, lang ∈ langs → Lang.percentage lang = 0%Q) ∧
  collect_lang_sizes example_repos =
    [("A", Data.Mk 300 "#858585"); ("B", Data.Mk 200 "#858585")] ∧
  calculate_language_stats example_repos =
    [Lang.Mk "A" 60 "#858585"; Lang.Mk "B" 40 "#858585"].
Proof.
  simpl. destruct (collect_lang_sizes_spec repos) as (Hnd & Hkeys & Hsize & _).
  split_and!.
  - by rewrite names_of_calculate_language_stats.
  - intros name. by rewrite names_of_calculate_language_stats.
  - exact Hsize.
  - intros lang Hin. rewrite (percentage_of_entry _ _ Hin). unfold round2. eauto.
  - intros Hnn Ht lang Hin. rewrite (percentage_of_entry _ _ Hin).
    apply reported_pct_error; [by apply language_size_range|done].
  - intros Ht lang Hin. rewrite (percentage_of_entry _ _ Hin).
    by rewrite pct_nonpos, round2_0.
  - vm_compute. reflexivity.
  - vm_compute. reflexivity.
Qed.

Lemma C6_witness :
  (exact_pct 300 500 - rounding_slack <= 60 <= exact_pct 300 500 + rounding_slack)%Q ∧
  (exact_pct 200 500 - rounding_slack <= 40 <= exact_pct 200 500 + rounding_slack)%Q.
Proof.
  destruct (C6_language_percentages example_repos)
    as (_ & _ & _ & _ & Hpct & _ & _ & Hexample).
  assert (Forall (λ edge, 0 ≤ Edge.size edge) (all_edges example_repos)) as Hnn
    by (repeat constructor; simpl; lia).
  assert (0 < total_size example_repos) as Ht by (vm_compute; reflexivity).
  split.
  - apply (Hpct Hnn Ht (Lang.Mk "A" 60 "#858585")). rewrite Hexample. left.
  - apply (Hpct Hnn Ht (Lang.Mk "B" 40 "#858585")). rewrite Hexample. right. left.
Defined.

(** C6 as stated fails: the percentage is not 100 x size / total size but
    that number rounded to two decimals.  Of three languages of equal size
    each is reported at 33.33, not at a third of 100. *)
Lemma C6_three_equal_languages_report_33_33 :
  Lang.percentage <$> calculate_language_stats three_equal_languages
    = [fl 33.33; fl 33.33; fl 33.33] ∧
  language_size three_equal_languages "a" = 1 ∧
  total_size three_equal_languages = 3 ∧
  ¬ (fl 33.33 == 100 * 1 / 3)%Q.
Proof. split_and!; vm_compute; (reflexivity || discriminate). Qed.

(** *** The sum of the percentages *)

Lemma percentages_of_ranked_sizes repos :
  Lang.percentage <$> calculate_language_stats repos =
  (λ size, round2 (pct size (total_size repos))) <$> ranked_sizes repos.
Proof.
  unfold ranked_sizes. rewrite calculate_language_stats_eq.
  by rewrite <- !list_fmap_compose.
Qed.

Lemma py_sum_ranked_sizes repos : py_sum (ranked_sizes repos) = total_size repos.
Proof.
  destruct (collect_lang_sizes_spec repos) as (_ & _ & _ & <-).
  apply py_sum_Permutation. unfold ranked_sizes.
  by rewrite sorted_Permutation.
Qed.

Lemma length_ranked_sizes repos :
  length (ranked_sizes repos) = length (calculate_language_stats repos).
Proof.
  unfold ranked_sizes. by rewrite calculate_language_stats_eq, !length_fmap.
Qed.

(** The exact percentages of the entries are those of the ranked sizes. *)
Lemma exact_of_ranked_sizes repos :
  (λ lang, exact_pct (language_size repos (Lang.name lang)) (total_size repos))
    <$> calculate_language_stats repos
  = (λ size, exact_pct size (total_size repos)) <$> ranked_sizes repos.
Proof.
  unfold ranked_sizes. rewrite calculate_language_stats_eq, <- !list_fmap_compose.
  destruct (collect_lang_sizes_spec repos) as (_ & _ & Hsize & _).
  apply list_fmap_ext. intros i [name data] Hi. simpl.
  apply list_elem_of_lookup_2, elem_of_sorted in Hi. by rewrite (Hsize _ _ Hi).
Qed.

(** The exact percentages add up to 100. *)
Lemma sum_exact repos :
  0 < total_size repos →
  (sumQ ((λ lang, exact_pct (language_size repos (Lang.name lang)) (total_size repos))
           <$> calculate_language_stats repos) == 100)%Q.
Proof.
  intros Ht. rewrite exact_of_ranked_sizes, sum_exact_pct, py_sum_ranked_sizes by done.
  unfold exact_pct. pose proof (inject_Z_pos _ Ht). field. lra.
Qed.

(** Entries that are each within [slack] of a reference add up to within
    [n * slack] of the sum of the references. *)
Lemma sumQ_within {A} (f g : A → Q) (slack : Q) (l : list A) :
  (∀ x, x ∈ l → (f x - slack <= g x <= f x + slack)%Q) →
  (sumQ (f <$> l) - inject_Z (Z.of_nat (length l)) * slack
   <= sumQ (g <$> l)
   <= sumQ (f <$> l) + inject_Z (Z.of_nat (length l)) * slack)%Q.
Proof.
  induction l as [|x l IH]; intros Hall; csimpl.
  - change (sumQ []) with 0%Q. change (inject_Z (Z.of_nat 0)) with 0%Q. lra.
  - rewrite !sumQ_cons, Nat2Z.inj_succ, <- Z.add_1_r, inject_Z_plus.
    change (inject_Z 1) with 1%Q.
    destruct IH as [IH1 IH2]; [intros y Hy; apply Hall; by right|].
    destruct (Hall x) as [Hx1 Hx2]; [left|]. lra.
Qed.

Lemma sumQ_zero {A} (g : A → Q) (l : list A) :
  (∀ x, x ∈ l → g x = 0%Q) → (sumQ (g <$> l) == 0)%Q.
Proof.
  induction l as [|x l IH]; intros Hall; csimpl; [reflexivity|].
  rewrite sumQ_cons, IH, (Hall x) by (try left; intros; apply Hall; by right). ring.
Qed.

(** C5, as the code has it, for byte sizes that are not negative.  Every
    reported percentage is the exact one rounded to two decimals in float
    arithmetic, so it lies within 0.005 + 2^-44 of the exact one; the exact
    ones add up to 100.  The reported percentages of n languages therefore
    add up to at least 100 - n (0.005 + 2^-44) and at most
    100 + n (0.005 + 2^-44): the sum can exceed 100.  When the total size
    is 0 every percentage, and so the sum, is 0. *)
Theorem C5_percentage_sum_within_rounding repos :
  Forall (λ edge, 0 ≤ Edge.size edge) (all_edges repos) →
  let langs := calculate_language_stats repos in
  let total := total_size repos in
  let exact := λ lang, exact_pct (language_size repos (Lang.name lang)) total in
  let n := inject_Z (Z.of_nat (length langs)) in
  (0 < total →
     (∀ lang, lang ∈ langs →
        (exact lang - rounding_slack <= Lang.percentage lang
         <= exact lang + rounding_slack)%Q) ∧
     (sumQ (exact <$> langs) == 100)%Q ∧
     (100 - n * rounding_slack <= sumQ (Lang.percentage <$> langs)
      <= 100 + n * rounding_slack)%Q) ∧
  (total ≤ 0 →
     (∀ lang, lang ∈ langs → Lang.percentage lang = 0%Q) ∧
     (sumQ (Lang.percentage <$> langs) == 0)%Q) ∧
  (sumQ (Lang.percentage <$> langs) <= 100 + n * rounding_slack)%Q.
Proof.
  intros Hnn langs total exact n.
  assert (0 < total →
          ∀ lang, lang ∈ langs →
            (exact lang - rounding_slack <= Lang.percentage lang
             <= exact lang + rounding_slack)%Q) as Hentry.
  { intros Ht lang Hin. rewrite (percentage_of_entry _ _ Hin).
    apply reported_pct_error; [by apply language_size_range|done]. }
  assert (total ≤ 0 → ∀ lang, lang ∈ langs → Lang.percentage lang = 0%Q) as Hzero.
  { intros Ht lang Hin. rewrite (percentage_of_entry _ _ Hin).
    by rewrite pct_nonpos, round2_0. }
  assert (0 <= n * rounding_slack)%Q as Hslack.
  { apply Qmult_le_0_compat; [|unfold rounding_slack; rewrite pow2_m44; lra].
    unfold n. change 0%Q with (inject_Z 0). rewrite <- Zle_Qle. lia. }
  split; [|split].
  - intros Ht. split; [by apply Hentry|]. split; [by apply sum_exact|].
    pose proof (sumQ_within exact Lang.percentage rounding_slack langs (Hentry Ht)) as Hsum.
    fold n in Hsum. pose proof (sum_exact repos Ht) as Hex.
    change (sumQ (exact <$> langs) == 100)%Q in Hex. lra.
  - intros Ht. split; [by apply Hzero|]. apply sumQ_zero. by apply Hzero.
  - destruct (decide (0 < total)) as [Ht|Ht].
    + pose proof (sumQ_within exact Lang.percentage rounding_slack langs (Hentry Ht)) as Hsum.
      fold n in Hsum. pose proof (sum_exact repos Ht) as Hex.
      change (sumQ (exact <$> langs) == 100)%Q in Hex. lra.
    + rewrite (sumQ_zero Lang.percentage langs); [lra|]. apply Hzero. lia.
Qed.

Lemma C5_witness :
  (100 - 2 * rounding_slack
   <= sumQ (Lang.percentage <$> calculate_language_stats example_repos)
   <= 100 + 2 * rounding_slack)%Q.
Proof.
  assert (Forall (λ edge, 0 ≤ Edge.size edge) (all_edges example_repos)) as Hnn
    by (repeat constructor; simpl; lia).
  destruct (C5_percentage_sum_within_rounding example_repos Hnn) as (Hpos & _ & _).
  destruct Hpos as (_ & _ & Hsum); [vm_compute; reflexivity|].
  exact Hsum.
Defined.

(** C5 as stated fails: six languages of equal size are reported at 16.67
    each, which adds up to more than 100. *)
Lemma C5_six_equal_languages_exceed_100 :
  Lang.percentage <$> calculate_language_stats six_equal_languages
    = [fl 16.67; fl 16.67; fl 16.67; fl 16.67; fl 16.67; fl 16.67] ∧
  (100 < sumQ (Lang.percentage <$> calculate_language_stats six_equal_languages))%Q.
Proof. split; vm_compute; reflexivity. Qed.

(** ** Rank scorer *)

Lemma stats_score_eq stats :
  let cc := get (Stats.contributionsCollection stats) CC.empty in
  stats_score stats =
    total_commits cc
    + 2 * get (CC.totalPullRequestContributions cc) 0
    + get (CC.totalIssueContributions cc) 0
    + get (CC.totalPullRequestReviewContributions cc) 0
    + total_stars stats.
Proof. simpl. unfold stats_score, score. lia. Qed.

(** C7: the score is commits + 2 x pull requests + issues + reviews +
    stars, and the grade follows from the score by the strict thresholds
    10000, 5000, 2500, 1000, 500 and 100, tried from the highest down. *)
Theorem C7_rank_score_and_grade commits prs issues reviews stars :
  let s := score commits prs issues reviews stars in
  s = commits + 2 * prs + issues + reviews + stars ∧
  (s > 10000 → rank s = "S+") ∧
  (5000 < s ≤ 10000 → rank s = "S") ∧
  (2500 < s ≤ 5000 → rank s = "A+") ∧
  (1000 < s ≤ 2500 → rank s = "A") ∧
  (500 < s ≤ 1000 → rank s = "B+") ∧
  (100 < s ≤ 500 → rank s = "B") ∧
  (s ≤ 100 → rank s = "C").
Proof.
  intros s. split; [unfold s, score; lia|].
  generalize s. clear. intros s.
  unfold rank. split_and!; intros Hs; repeat case_decide; done || lia.
Qed.

Lemma C7_witness :
  score 2007 40 3 5 1200 = 3295 ∧ rank (score 2007 40 3 5 1200) = "A+" ∧
  rank (score 0 0 0 0 0) = "C" ∧ rank (score 10000 0 0 0 1) = "S+" ∧
  rank (score 100 0 0 0 0) = "C" ∧ rank (score 99 1 0 0 0) = "B".
Proof.
  destruct (C7_rank_score_and_grade 2007 40 3 5 1200) as (_ & _ & _ & HAp & _).
  destruct (C7_rank_score_and_grade 0 0 0 0 0) as (_ & _ & _ & _ & _ & _ & _ & HC).
  destruct (C7_rank_score_and_grade 10000 0 0 0 1) as (_ & HSp & _).
  destruct (C7_rank_score_and_grade 100 0 0 0 0) as (_ & _ & _ & _ & _ & _ & _ & HC').
  destruct (C7_rank_score_and_grade 99 1 0 0 0) as (_ & _ & _ & _ & _ & _ & HB & _).
  split_and!.
  - reflexivity.
  - apply HAp. unfold score. lia.
  - apply HC. unfold score. lia.
  - apply HSp. unfold score. lia.
  - apply HC'. unfold score. lia.
  - apply HB. unfold score. lia.
Defined.

(** ** Card renderer *)

(** *** Strings *)

Lemma append_empty_r (s : string) : s +:+ EmptyString = s.
Proof. induction s as [|c s IH]; [done|]. exact (f_equal (String c) IH). Qed.

Lemma append_assoc (s1 s2 s3 : string) : (s1 +:+ s2) +:+ s3 = s1 +:+ (s2 +:+ s3).
Proof. induction s1 as [|c s1 IH]; [done|]. exact (f_equal (String c) IH). Qed.

Lemma join_cons (x : string) (l : list string) : join (x :: l) = x +:+ join l.
Proof. destruct l as [|y l]; [symmetry; apply append_empty_r|done]. Qed.

Lemma join_app (l1 l2 : list string) : join (l1 ++ l2) = join l1 +:+ join l2.
Proof.
  induction l1 as [|x l1 IH]; [done|].
  by rewrite <- app_comm_cons, !join_cons, IH, append_assoc.
Qed.

(** A run of consecutive pieces of a joined text occurs in it, and so does
    every part of the run. *)
Lemma contains_slice (i n : nat) (pieces : list string) (pre sub post : string) :
  join (take n (drop i pieces)) = pre +:+ sub +:+ post →
  contains (join pieces) sub.
Proof.
  intros Hslice.
  exists (join (take i pieces) +:+ pre), (post +:+ join (drop n (drop i pieces))).
  rewrite <- (take_drop i pieces) at 1.
  rewrite <- (take_drop n (drop i pieces)) at 1.
  rewrite !join_app, Hslice, !append_assoc. done.
Qed.

Lemma stats_theme_unknown theme :
  theme ∉ ["merko"; "dark"; "default"] → StatsTheme.themes !! theme = None.
Proof.
  rewrite !not_elem_of_cons. intros (? & ? & ? & _). unfold StatsTheme.themes.
  by rewrite !lookup_insert_ne, lookup_singleton_ne.
Qed.

Lemma langs_theme_unknown theme :
  theme ∉ ["merko"; "dark"; "default"] → LangsTheme.themes !! theme = None.
Proof.
  rewrite !not_elem_of_cons. intros (? & ? & ? & _). unfold LangsTheme.themes.
  by rewrite !lookup_insert_ne, lookup_singleton_ne.
Qed.

Lemma streak_theme_unknown theme :
  theme ∉ ["tokyonight"; "dark"; "default"] → StreakTheme.themes !! theme = None.
Proof.
  rewrite !not_elem_of_cons. intros (? & ? & ? & _). unfold StreakTheme.themes.
  by rewrite !lookup_insert_ne, lookup_singleton_ne.
Qed.

Lemma stats_theme_default :
  StatsTheme.themes !! "merko" = Some (StatsTheme.themes !!! "merko").
Proof. reflexivity. Qed.

Lemma langs_theme_default :
  LangsTheme.themes !! "merko" = Some (LangsTheme.themes !!! "merko").
Proof. reflexivity. Qed.

Lemma streak_theme_default :
  StreakTheme.themes !! "tokyonight" = Some (StreakTheme.themes !!! "tokyonight").
Proof. reflexivity. Qed.

Lemma stats_theme_merko :
  StatsTheme.themes !!! "merko"
  = StatsTheme.Mk "#0a0f0b" "#69ff97" "#69ff97" "#c9d1d9" "#69ff97".
Proof. reflexivity. Qed.

Lemma langs_theme_merko :
  LangsTheme.themes !!! "merko" = LangsTheme.Mk "#0a0f0b" "#69ff97" "#69ff97" "#c9d1d9".
Proof. reflexivity. Qed.

Lemma streak_theme_tokyonight :
  StreakTheme.themes !!! "tokyonight"
  = StreakTheme.Mk "#1a1b27" "#70a5fd" "#70a5fd" "#38bdae" "#bf91f3" "#70a5fd" "#eb6e17".
Proof. reflexivity. Qed.

(** The pieces [i .. i + n) of the template, read as [pre], the text
    looked for, and [post]. *)
Ltac slice i n pre post :=
  apply (contains_slice i n _ pre _ post); reflexivity.

Lemma stats_card_merko stats username :
  stats_card_painted (generate_stats_svg stats username "merko")
    "#0a0f0b" "#69ff97" "#69ff97" "#c9d1d9" "#69ff97".
Proof.
  unfold generate_stats_svg. cbv zeta.
  rewrite stats_theme_default. cbn [get]. rewrite stats_theme_merko.
  cbn [StatsTheme.bg StatsTheme.border StatsTheme.title StatsTheme.text StatsTheme.icon].
  unfold stats_card_painted. split_and!.
  - slice 14%nat 3%nat "    " " animation: fadeInAnimation 0.8s ease-in-out forwards; }".
  - slice 18%nat 3%nat "    " " }".
  - slice 24%nat 3%nat "    " " }".
  - slice 28%nat 3%nat "    " " }".
  - slice 46%nat 9%nat " " "/>".
Qed.

Lemma langs_card_merko str_float format_1f float_sum languages layout :
  langs_card_painted (generate_top_langs_svg str_float format_1f float_sum languages "merko" layout)
    "#0a0f0b" "#69ff97" "#69ff97" "#c9d1d9".
Proof.
  unfold generate_top_langs_svg. cbv zeta.
  rewrite langs_theme_default. cbn [get]. rewrite langs_theme_merko.
  cbn [LangsTheme.bg LangsTheme.border LangsTheme.title LangsTheme.text].
  destruct (foldl _ _ _) as [donut_segments offset].
  unfold langs_card_painted. split_and!.
  - slice 19%nat 3%nat "    " " }".
  - slice 23%nat 3%nat "    " " }".
  - slice 27%nat 3%nat "    " " }".
  - slice 45%nat 9%nat " " "/>".
Qed.

Lemma streak_card_tokyonight strftime s username :
  streak_card_painted (generate_streak_svg strftime s username "tokyonight")
    "#1a1b27" "#70a5fd" "#38bdae" "#bf91f3" "#70a5fd".
Proof.
  unfold generate_streak_svg. cbv zeta.
  rewrite streak_theme_default. cbn [get]. rewrite streak_theme_tokyonight.
  cbn [StreakTheme.bg StreakTheme.border StreakTheme.title StreakTheme.text
       StreakTheme.dates StreakTheme.ring StreakTheme.fire].
  unfold streak_card_painted. split_and!.
  - slice 14%nat 3%nat "    " " }".
  - slice 18%nat 3%nat "    " " }".
  - slice 22%nat 3%nat "    " " }".
  - slice 26%nat 3%nat "    " " }".
  - slice 42%nat 7%nat " " "/>".
  - slice 120%nat 7%nat " " "/>".
Qed.

(** C10: a theme name that is not a key of a card's palette table selects
    that card's default palette.  The stats and top-languages cards are
    then painted in the merko colours and the streak card in the tokyonight
    colours, and each card is the very text an explicit call with the
    default theme returns. *)
Theorem C10_unknown_theme_falls_back
    (str_float format_1f : Q → string) (strftime : Z → string → string)
    (float_sum : list Q → Q)
    (stats : Stats.t) (languages : list Lang.t) (s : streaks)
    (username theme layout : string) :
  (theme ∉ ["merko"; "dark"; "default"] →
   generate_stats_svg stats username theme
     = generate_stats_svg stats username "merko" ∧
   stats_card_painted (generate_stats_svg stats username theme)
     "#0a0f0b" "#69ff97" "#69ff97" "#c9d1d9" "#69ff97" ∧
   generate_top_langs_svg str_float format_1f float_sum languages theme layout
     = generate_top_langs_svg str_float format_1f float_sum languages "merko" layout ∧
   langs_card_painted (generate_top_langs_svg str_float format_1f float_sum languages theme layout)
     "#0a0f0b" "#69ff97" "#69ff97" "#c9d1d9") ∧
  (theme ∉ ["tokyonight"; "dark"; "default"] →
   generate_streak_svg strftime s username theme
     = generate_streak_svg strftime s username "tokyonight" ∧
   streak_card_painted (generate_streak_svg strftime s username theme)
     "#1a1b27" "#70a5fd" "#38bdae" "#bf91f3" "#70a5fd").
Proof.
  split.
  - intros Hnew.
    assert (generate_stats_svg stats username theme
            = generate_stats_svg stats username "merko") as Hstats.
    { unfold generate_stats_svg. cbv zeta.
      by rewrite stats_theme_unknown, stats_theme_default. }
    assert (generate_top_langs_svg str_float format_1f float_sum languages theme layout
            = generate_top_langs_svg str_float format_1f float_sum languages "merko" layout)
      as Hlangs.
    { unfold generate_top_langs_svg. cbv zeta.
      by rewrite langs_theme_unknown, langs_theme_default. }
    rewrite Hstats, Hlangs.
    split_and!; [done|apply stats_card_merko|done|apply langs_card_merko].
  - intros Hnew.
    assert (generate_streak_svg strftime s username theme
            = generate_streak_svg strftime s username "tokyonight") as Hstreak.
    { unfold generate_streak_svg. cbv zeta.
      by rewrite streak_theme_unknown, streak_theme_default. }
    rewrite Hstreak. split; [done|apply streak_card_tokyonight].
Qed.

Lemma C10_witness :
  (generate_stats_svg (Stats.Mk None None None) "bkataru" "tokyonight"
     = generate_stats_svg (Stats.Mk None None None) "bkataru" "merko" ∧
   stats_card_painted
     (generate_stats_svg (Stats.Mk None None None) "bkataru" "tokyonight")
     "#0a0f0b" "#69ff97" "#69ff97" "#c9d1d9" "#69ff97") ∧
  (generate_streak_svg (λ _ _, "Jan 01, 2025")
       (Streaks 0 0 None None 0 None None) "bkataru" "merko"
     = generate_streak_svg (λ _ _, "Jan 01, 2025")
       (Streaks 0 0 None None 0 None None) "bkataru" "tokyonight" ∧
   streak_card_painted
     (generate_streak_svg (λ _ _, "Jan 01, 2025")
        (Streaks 0 0 None None 0 None None) "bkataru" "merko")
     "#1a1b27" "#70a5fd" "#38bdae" "#bf91f3" "#70a5fd").
Proof.
  pose proof (C10_unknown_theme_falls_back (λ _, "0.0") (λ _, "0.0")
                (λ _ _, "Jan 01, 2025") (λ _, 0%Q) (Stats.Mk None None None) []
                (Streaks 0 0 None None 0 None None) "bkataru" "tokyonight" "donut")
    as [Hstats _].
  pose proof (C10_unknown_theme_falls_back (λ _, "0.0") (λ _, "0.0")
                (λ _ _, "Jan 01, 2025") (λ _, 0%Q) (Stats.Mk None None None) []
                (Streaks 0 0 None None 0 None None) "bkataru" "merko" "donut")
    as [_ Hstreak].
  split.
  - destruct Hstats as (H1 & H2 & _).
    + rewrite !not_elem_of_cons. split_and!; try discriminate. apply not_elem_of_nil.
    + by split.
  - apply Hstreak. rewrite !not_elem_of_cons. split_and!; try discriminate.
    apply not_elem_of_nil.
Defined.

(** The palette is part of the text: the dark theme paints the same stats
    card differently. *)
Lemma stats_card_dark stats username :
  stats_card_painted (generate_stats_svg stats username "dark")
    "#151515" "#e4e2e2" "#fff" "#9f9f9f" "#79ff97".
Proof.
  unfold generate_stats_svg. cbv zeta.
  assert (StatsTheme.themes !! "dark"
          = Some (StatsTheme.Mk "#151515" "#e4e2e2" "#fff" "#9f9f9f" "#79ff97")) as ->
    by reflexivity.
  cbn [get StatsTheme.bg StatsTheme.border StatsTheme.title StatsTheme.text StatsTheme.icon].
  unfold stats_card_painted. split_and!.
  - slice 14%nat 3%nat "    " " animation: fadeInAnimation 0.8s ease-in-out forwards; }".
  - slice 18%nat 3%nat "    " " }".
  - slice 24%nat 3%nat "    " " }".
  - slice 28%nat 3%nat "    " " }".
  - slice 46%nat 9%nat " " "/>".
Qed.

(** * Further properties of the code *)

(** ** Streak engine: what the reported streaks are *)

(** A finite set of dates is bounded below. *)
Lemma contrib_dates_bounded (contrib_dates : gset Z) :
  ∃ m, ∀ d, d ∈ contrib_dates → m ≤ d.
Proof.
  destruct (decide (contrib_dates = ∅)) as [->|Hne].
  - exists 0. intros d Hd. by apply not_elem_of_empty in Hd.
  - destruct (min_date_spec contrib_dates Hne) as [_ Hmin]. eauto.
Qed.

(** An active date is the right end of consecutive active dates that cannot
    be extended to the left. *)
Lemma extend_left (contrib_dates : gset Z) (s : Z) :
  s ∈ contrib_dates →
  ∃ s', s' ≤ s ∧ (∀ x, s' ≤ x ≤ s → x ∈ contrib_dates) ∧ (s' - 1) ∉ contrib_dates.
Proof.
  destruct (contrib_dates_bounded contrib_dates) as [m Hm].
  assert (∀ n : nat, ∀ s, s - m < Z.of_nat n → s ∈ contrib_dates →
            ∃ s', s' ≤ s ∧ (∀ x, s' ≤ x ≤ s → x ∈ contrib_dates) ∧
                  (s' - 1) ∉ contrib_dates) as H.
  { induction n as [|n IH]; intros s0 Hn Hs0.
    - apply Hm in Hs0. lia.
    - destruct (decide ((s0 - 1) ∈ contrib_dates)) as [Hin|Hnin].
      + destruct (IH (s0 - 1)) as (s' & Hle & Hall & Hend); [lia|done|].
        exists s'. split_and!; [lia| |done].
        intros x Hx. destruct (decide (x = s0)) as [->|]; [done|]. apply Hall. lia.
      + exists s0. split_and!; [lia| |done].
        intros x Hx. by replace x with s0 by lia. }
  intros Hs. apply (H (Z.to_nat (s - m + 1))); [|done].
  apply Hm in Hs. lia.
Qed.

(** Likewise to the right, up to [today]. *)
Lemma extend_right (contrib_dates : gset Z) (today e : Z) :
  e ∈ contrib_dates → e ≤ today →
  ∃ e', e ≤ e' ∧ e' ≤ today ∧ (∀ x, e ≤ x ≤ e' → x ∈ contrib_dates) ∧
        (e' = today ∨ (e' + 1) ∉ contrib_dates).
Proof.
  assert (∀ n : nat, ∀ e, today - e < Z.of_nat n → e ∈ contrib_dates → e ≤ today →
            ∃ e', e ≤ e' ∧ e' ≤ today ∧ (∀ x, e ≤ x ≤ e' → x ∈ contrib_dates) ∧
                  (e' = today ∨ (e' + 1) ∉ contrib_dates)) as H.
  { induction n as [|n IH]; intros e0 Hn He0 HeT; [lia|].
    destruct (decide (e0 = today)) as [->|Hne].
    { exists today. split_and!; [lia|lia| |by left].
      intros x Hx. by replace x with today by lia. }
    destruct (decide ((e0 + 1) ∈ contrib_dates)) as [Hin|Hnin].
    - destruct (IH (e0 + 1)) as (e' & Hle & HT & Hall & Hend); [lia|done|lia|].
      exists e'. split_and!; [lia|done| |done].
      intros x Hx. destruct (decide (x = e0)) as [->|]; [done|]. apply Hall. lia.
    - exists e0. split_and!; [lia|done| |by right].
      intros x Hx. by replace x with e0 by lia. }
  intros He HeT. apply (H (Z.to_nat (today - e + 1))); [lia|done|done].
Qed.

(** Consecutive active dates up to [today] lie inside a run the walk finds. *)
Lemma block_in_run (contrib_dates : gset Z) (today s e : Z) :
  s ≤ e → e ≤ today → (∀ x, s ≤ x ≤ e → x ∈ contrib_dates) →
  ∃ s' e', s' ≤ s ∧ e ≤ e' ∧ run_in contrib_dates today s' e'.
Proof.
  intros Hse HeT Hall.
  destruct (extend_left contrib_dates s) as (s' & Hs's & Hl & Hlend);
    [apply Hall; lia|].
  destruct (extend_right contrib_dates today e) as (e' & Hee' & He'T & Hr & Hrend);
    [apply Hall; lia|done|].
  exists s', e'. unfold run_in. split_and!; try done; try lia.
  intros x Hx.
  destruct (decide (x < s)); [apply Hl; lia|].
  destruct (decide (x ≤ e)); [apply Hall; lia|apply Hr; lia].
Qed.

(** The longest streak is at least as long as any stretch of consecutive
    active dates up to [today]. *)
Theorem longest_bounds_every_block e days s e' :
  s ≤ e' → e' ≤ today e → (∀ x, s ≤ x ≤ e' → active days x) →
  e' - s + 1 ≤ longest (calculate_streaks e days).
Proof.
  intros Hse HeT Hall.
  destruct (block_in_run (contrib_dates_of days) (today e) s e')
    as (s0 & e0 & Hs0 & He0 & Hrun); [done|done| |].
  { intros x Hx. apply elem_of_contrib_dates. by apply Hall. }
  destruct (fin_max _ _ _ (calculate_streaks_spec e days) s0 e0 Hrun) as [Hlen _].
  simpl in Hlen. lia.
Qed.

Lemma longest_bounds_every_block_witness :
  3 ≤ longest (calculate_streaks (Env 20) [Day 7 1; Day 5 2; Day 6 1; Day 9 4]).
Proof.
  apply (longest_bounds_every_block (Env 20) [Day 7 1; Day 5 2; Day 6 1; Day 9 4] 5 7).
  - lia.
  - simpl. lia.
  - intros x Hx. rewrite !active_cons, active_nil. simpl. lia.
Defined.

(** The longest streak that is reported is a stretch of consecutive active
    dates, none later than [today], of exactly the reported length; its
    dates are present exactly when the length is positive. *)
Theorem longest_range_is_a_block e days :
  let r := calculate_streaks e days in
  0 ≤ longest r ∧
  (longest r = 0 → longest_start r = None ∧ longest_end r = None) ∧
  (0 < longest r →
   ∃ ls le, longest_start r = Some ls ∧ longest_end r = Some le ∧
            le - ls + 1 = longest r ∧ le ≤ today e ∧
            (∀ x, ls ≤ x ≤ le → active days x) ∧
            ¬ active days (ls - 1) ∧
            (le = today e ∨ ¬ active days (le + 1))).
Proof.
  intros r.
  destruct (calculate_streaks_spec e days) as [Hlg Hnone Hsome _ _ _ _].
  fold r in Hlg, Hnone, Hsome. simpl in *.
  split_and!; [done|done|].
  intros Hpos. destruct (Hsome Hpos) as (ls & le & Hls & Hle & Hrun & Hlen).
  apply streak_run_run_in in Hrun. destruct Hrun as (? & ? & ? & ? & ?).
  exists ls, le. by split_and!.
Qed.

Lemma longest_range_is_a_block_witness :
  let r := calculate_streaks (Env 20) [Day 7 1; Day 5 2; Day 6 1; Day 9 4] in
  ∃ ls le, longest_start r = Some ls ∧ longest_end r = Some le ∧
           le - ls + 1 = longest r.
Proof.
  intros r.
  destruct (longest_range_is_a_block (Env 20) [Day 7 1; Day 5 2; Day 6 1; Day 9 4])
    as (_ & _ & Hsome).
  destruct Hsome as (ls & le & Hls & Hle & Hlen & _); [vm_compute; reflexivity|].
  exists ls, le. split; [exact Hls|]. split; [exact Hle|exact Hlen].
Defined.

(** The current streak is positive exactly when [today] is active; it is
    then the stretch of consecutive active dates that ends [today]. *)
Theorem current_streak_ends_today e days :
  let r := calculate_streaks e days in
  (¬ active days (today e) →
   current r = 0 ∧ current_start r = None ∧ current_end r = None) ∧
  (active days (today e) →
   ∃ s, current r = today e - s + 1 ∧ 0 < current r ∧
        current_start r = Some s ∧ current_end r = Some (today e) ∧
        (∀ x, s ≤ x ≤ today e → active days x) ∧ ¬ active days (s - 1)).
Proof.
  intros r. split.
  - apply current_zero_when_today_inactive.
  - intros Hact. apply elem_of_contrib_dates in Hact.
    destruct (extend_left _ _ Hact) as (s & Hs & Hall & Hend).
    assert (streak_run days (today e) s (today e)) as Hrun.
    { apply streak_run_run_in. unfold run_in. split_and!; try done; try lia. }
    destruct (current_is_run_ending_today e days s Hrun) as (Hc & Hcs & Hce).
    fold r in Hc, Hcs, Hce. destruct Hrun as (_ & _ & Hall' & Hend' & _).
    exists s. split_and!; try done. lia.
Qed.

Lemma current_streak_ends_today_witness :
  let r := calculate_streaks (Env 9) [Day 7 1; Day 8 2; Day 9 1; Day 5 4] in
  ∃ s, current r = 9 - s + 1 ∧ current_start r = Some s ∧ current_end r = Some 9.
Proof.
  intros r.
  destruct (current_streak_ends_today (Env 9) [Day 7 1; Day 8 2; Day 9 1; Day 5 4])
    as [_ Hact].
  destruct Hact as (s & Hc & _ & Hs & He & _).
  - rewrite !active_cons, active_nil. simpl. lia.
  - by exists s.
Defined.

(** ** Streak engine: what the result depends on *)

(** The result depends on the series only through the set of active dates
    and the sum of the counts. *)
Lemma calculate_streaks_ext e days1 days2 :
  contrib_dates_of days1 = contrib_dates_of days2 →
  py_sum (contributionCount <$> days1) = py_sum (contributionCount <$> days2) →
  calculate_streaks e days1 = calculate_streaks e days2.
Proof.
  intros Hcd Hsum. unfold calculate_streaks.
  rewrite !contrib_dates_sorted, Hcd.
  rewrite (py_sum_Permutation (contributionCount <$> sorted date days1)
             (contributionCount <$> days1))
    by apply fmap_Permutation, sorted_Permutation.
  rewrite (py_sum_Permutation (contributionCount <$> sorted date days2)
             (contributionCount <$> days2))
    by apply fmap_Permutation, sorted_Permutation.
  by rewrite Hsum.
Qed.

Lemma contrib_dates_Permutation days1 days2 :
  days1 ≡ₚ days2 → contrib_dates_of days1 = contrib_dates_of days2.
Proof.
  intros Hp. apply set_eq. intros d. rewrite !elem_of_contrib_dates.
  unfold active. by setoid_rewrite Hp.
Qed.

(** The order in which the day records arrive does not matter. *)
Theorem calculate_streaks_order_independent e days1 days2 :
  days1 ≡ₚ days2 → calculate_streaks e days1 = calculate_streaks e days2.
Proof.
  intros Hp. apply calculate_streaks_ext.
  - by apply contrib_dates_Permutation.
  - by apply py_sum_Permutation, fmap_Permutation.
Qed.

Lemma calculate_streaks_order_independent_witness :
  calculate_streaks (Env 9) [Day 9 1; Day 7 2; Day 8 1]
  = calculate_streaks (Env 9) [Day 7 2; Day 8 1; Day 9 1].
Proof.
  apply calculate_streaks_order_independent.
  change ([Day 9 1] ++ [Day 7 2; Day 8 1] ≡ₚ [Day 7 2; Day 8 1] ++ [Day 9 1]).
  apply Permutation_app_comm.
Defined.

Lemma py_sum_filter_nonzero (days : list day) :
  py_sum (contributionCount <$> filter (λ r, contributionCount r ≠ 0) days)
  = py_sum (contributionCount <$> days).
Proof.
  induction days as [|r days IH]; [done|].
  rewrite filter_cons. case_decide as Hr; csimpl; rewrite !py_sum_cons; lia.
Qed.

(** Records with a count of zero can be left out or added freely: a date
    without a record and a date with a zero record are the same to the
    streak computation. *)
Theorem calculate_streaks_ignores_zero_records e days :
  calculate_streaks e (filter (λ r, contributionCount r ≠ 0) days)
  = calculate_streaks e days.
Proof.
  apply calculate_streaks_ext.
  - apply set_eq. intros d. rewrite !elem_of_contrib_dates. unfold active.
    split.
    + intros (r & Hr & Hd & Hc). apply list_elem_of_filter in Hr as [_ Hr]. eauto.
    + intros (r & Hr & Hd & Hc). exists r. split_and!; [|done|done].
      apply list_elem_of_filter. split; [lia|done].
  - apply py_sum_filter_nonzero.
Qed.

(** [final_spec] determines the six streak fields: two results that meet it
    for sets of dates with the same runs agree. *)
Lemma final_spec_unique cd1 cd2 today v1 v2 :
  final_spec cd1 today v1 → final_spec cd2 today v2 →
  (∀ s e, run_in cd1 today s e ↔ run_in cd2 today s e) →
  (today ∈ cd1 ↔ today ∈ cd2) →
  L.current_streak v1 = L.current_streak v2 ∧
  L.current_start v1 = L.current_start v2 ∧
  L.current_end v1 = L.current_end v2 ∧
  L.longest_streak v1 = L.longest_streak v2 ∧
  L.longest_start v1 = L.longest_start v2 ∧
  L.longest_end v1 = L.longest_end v2.
Proof.
  intros [Hlg1 Hnone1 Hsome1 Hmax1 Hina1 Hcur1 _]
         [Hlg2 Hnone2 Hsome2 Hmax2 Hina2 Hcur2 _] Hruns Htoday.
  assert (L.current_streak v1 = L.current_streak v2 ∧
          L.current_start v1 = L.current_start v2 ∧
          L.current_end v1 = L.current_end v2) as Hcurrent.
  { destruct (decide (today ∈ cd1)) as [Hin|Hnin].
    - destruct (extend_left cd1 today Hin) as (s & Hs & Hall & Hend).
      assert (run_in cd1 today s today) as Hrun
        by (unfold run_in; split_and!; try done; try lia; by left).
      destruct (Hcur1 s Hrun) as (-> & -> & ->).
      apply Hruns in Hrun. by destruct (Hcur2 s Hrun) as (-> & -> & ->).
    - destruct (Hina1 Hnin) as (-> & -> & ->).
      rewrite Htoday in Hnin. by destruct (Hina2 Hnin) as (-> & -> & ->). }
  assert (L.longest_streak v1 = L.longest_streak v2) as Hlong.
  { destruct (decide (0 < L.longest_streak v1)) as [Hp1|Hp1];
      destruct (decide (0 < L.longest_streak v2)) as [Hp2|Hp2]; [| | |lia].
    - destruct (Hsome1 Hp1) as (ls1 & le1 & _ & _ & Hr1 & Hlen1).
      destruct (Hsome2 Hp2) as (ls2 & le2 & _ & _ & Hr2 & Hlen2).
      apply Hruns in Hr1. apply Hruns in Hr2.
      destruct (Hmax2 _ _ Hr1) as [? _]. destruct (Hmax1 _ _ Hr2) as [? _]. lia.
    - destruct (Hsome1 Hp1) as (ls1 & le1 & _ & _ & Hr1 & Hlen1).
      apply Hruns in Hr1. destruct (Hmax2 _ _ Hr1) as [? _]. lia.
    - destruct (Hsome2 Hp2) as (ls2 & le2 & _ & _ & Hr2 & Hlen2).
      apply Hruns in Hr2. destruct (Hmax1 _ _ Hr2) as [? _]. lia. }
  assert (L.longest_start v1 = L.longest_start v2 ∧
          L.longest_end v1 = L.longest_end v2) as Hrange.
  { destruct (decide (L.longest_streak v1 = 0)) as [Hz|Hnz].
    - destruct (Hnone1 Hz) as [-> ->].
      rewrite Hlong in Hz. by destruct (Hnone2 Hz) as [-> ->].
    - destruct Hsome1 as (ls1 & le1 & Hls1 & Hle1 & Hr1 & Hlen1); [lia|].
      destruct Hsome2 as (ls2 & le2 & Hls2 & Hle2 & Hr2 & Hlen2); [lia|].
      pose proof (proj1 (Hruns _ _) Hr1) as Hr1'.
      pose proof (proj2 (Hruns _ _) Hr2) as Hr2'.
      destruct (Hmax2 _ _ Hr1') as [_ Htie2].
      destruct (Hmax1 _ _ Hr2') as [_ Htie1].
      assert (ls1 ≤ ls2) by (apply Htie1; [lia|done]).
      assert (ls2 ≤ ls1) by (apply Htie2; [lia|done]).
      rewrite Hls1, Hls2, Hle1, Hle2. split; f_equal; lia. }
  destruct Hcurrent as (? & ? & ?). destruct Hrange as [? ?]. by split_and!.
Qed.

Lemma elem_of_contrib_dates_until today days d :
  d ∈ contrib_dates_of (filter (λ r, date r ≤ today) days) ↔
  d ∈ contrib_dates_of days ∧ d ≤ today.
Proof.
  rewrite !elem_of_contrib_dates. unfold active. split.
  - intros (r & Hr & Hd & Hc). apply list_elem_of_filter in Hr as [Hle Hr].
    split; [eauto|lia].
  - intros [(r & Hr & Hd & Hc) Hle]. exists r. split_and!; [|done|done].
    apply list_elem_of_filter. split; [lia|done].
Qed.

(** Records dated after [today] never change the streaks: current and
    longest streak, with their dates, are those of the series cut off at
    [today].  (The total still counts them.) *)
Theorem streaks_ignore_future_records e days :
  let r := calculate_streaks e days in
  let r' := calculate_streaks e (filter (λ d, date d ≤ today e) days) in
  current r = current r' ∧
  current_start r = current_start r' ∧
  current_end r = current_end r' ∧
  longest r = longest r' ∧
  longest_start r = longest_start r' ∧
  longest_end r = longest_end r'.
Proof.
  intros r r'.
  pose proof (calculate_streaks_spec e days) as H1.
  pose proof (calculate_streaks_spec e (filter (λ d, date d ≤ today e) days)) as H2.
  apply (final_spec_unique _ _ _ _ _ H1 H2).
  - intros s e'. unfold run_in.
    repeat setoid_rewrite elem_of_contrib_dates_until. split.
    + intros (Hse & HeT & Hall & Hs & He). split_and!; try done.
      * intros x Hx. split; [by apply Hall|lia].
      * intros [? _]. done.
      * destruct He as [->|He]; [by left|right]. intros [? _]. done.
    + intros (Hse & HeT & Hall & Hs & He). split_and!; try done.
      * intros x Hx. by apply Hall.
      * intros Hin. apply Hs. split; [done|lia].
      * destruct He as [->|He]; [by left|].
        destruct (decide (e' = today e)) as [->|Hne]; [by left|right].
        intros Hin. apply He. split; [done|lia].
  - rewrite elem_of_contrib_dates_until. split; [|by intros [? _]].
    intros Hin. split; [done|lia].
Qed.

(** ** Language aggregator: order and range of the percentages *)

(** The list is ranked: percentages never increase along it. *)
Theorem language_percentages_descend repos :
  StronglySorted (λ a b, (Lang.percentage b <= Lang.percentage a)%Q)
                 (calculate_language_stats repos).
Proof.
  rewrite calculate_language_stats_eq.
  apply (StronglySorted_fmap _ (key_le (λ x : string * Data.t, - Data.size x.2)));
    [|apply sorted_StronglySorted].
  intros a b Hab. unfold key_le in Hab. simpl.
  apply round2_mono, pct_mono. lia.
Qed.

Lemma py_sum_nonneg (xs : list Z) : Forall (λ x, 0 ≤ x) xs → 0 ≤ py_sum xs.
Proof.
  induction 1 as [|x xs Hx _ IH]; [done|]. rewrite py_sum_cons. lia.
Qed.

(** When no byte size is negative, every reported percentage lies between 0
    and 100. *)
Theorem language_percentages_in_range repos :
  Forall (λ edge, 0 ≤ Edge.size edge) (all_edges repos) →
  ∀ lang, lang ∈ calculate_language_stats repos →
    (0 <= Lang.percentage lang <= 100)%Q.
Proof.
  intros Hnn lang (item & -> & Hin)%elem_of_calculate_language_stats.
  destruct item as [name data]. simpl.
  destruct (collect_lang_sizes_spec repos) as (_ & _ & Hsize & _).
  rewrite (Hsize _ _ Hin).
  pose proof (py_sum_filter_le (λ edge, edge_name edge = name) _ Hnn) as Hle.
  fold (language_size repos name) in Hle. fold (total_size repos) in Hle.
  destruct (pct_range _ _ Hle) as [Hlo Hhi].
  split.
  - change 0%Q with (round2 0). by apply round2_mono.
  - change 100%Q with (round2 100). by apply round2_mono.
Qed.

Lemma language_percentages_in_range_witness :
  Forall (λ lang, (0 <= Lang.percentage lang <= 100)%Q)
         (calculate_language_stats example_repos).
Proof.
  apply Forall_forall.
  apply (language_percentages_in_range example_repos).
  repeat constructor; simpl; lia.
Defined.

(** ** Language aggregator: the colour of an entry *)

(** The colour one edge leaves in the table. *)
Lemma add_edge_color edge data :
  Data.color (add_edge edge data)
  = match Node.color (Edge.node edge) with
    | Some c => if decide (c = EmptyString) then Data.color data else c
    | None => Data.color data
    end.
Proof.
  unfold add_edge. simpl.
  by destruct (Node.color (Edge.node edge)) as [[|a c]|].
Qed.

Lemma colours_of_snoc name edges edge :
  colours_of name (edges ++ [edge]) = colours_of name edges ++ colours_of name [edge].
Proof. unfold colours_of. by rewrite omap_app. Qed.

Lemma colours_of_none name edges :
  Forall (λ edge, edge_name edge ≠ name) edges → colours_of name edges = [].
Proof.
  induction 1 as [|edge edges Hne _ IH]; [done|].
  unfold colours_of in *. cbn [omap list_omap]. by rewrite decide_False, IH.
Qed.

(** The colour the two loops leave for a language is the last colour its
    edges carried. *)
Lemma foldl_add_to_color edges name data :
  (name, data) ∈ foldl add_to [] edges →
  Data.color data = default "#858585" (last (colours_of name edges)).
Proof.
  revert name data. induction edges as [|edge edges IH] using rev_ind;
    intros name data Hin.
  - by apply elem_of_nil in Hin.
  - rewrite foldl_app in Hin. rewrite colours_of_snoc.
    destruct (foldl_add_to_spec edges) as (Hnd & Hkeys & _ & _).
    cbn [foldl] in Hin. unfold add_to at 1 in Hin.
    apply elem_of_update in Hin; [|exact Hnd].
    unfold colours_of at 2. cbn [omap list_omap].
    destruct Hin as [[Hne Hin]|(-> & old & -> & Hold)].
    + rewrite decide_False by done. rewrite app_nil_r. by apply IH.
    + rewrite decide_True by done. rewrite add_edge_color.
      assert (Data.color old = default "#858585" (last (colours_of (edge_name edge) edges)))
        as Hold_color.
      { destruct Hold as [Hold|[Hnew ->]]; [by apply IH|].
        rewrite colours_of_none; [done|].
        apply Forall_forall. intros e He Hn. apply Hnew, Hkeys. eauto. }
      destruct (Node.color (Edge.node edge)) as [c|]; [|by rewrite app_nil_r].
      destruct (decide (c = EmptyString)); [by rewrite app_nil_r|].
      by rewrite last_snoc.
Qed.

(** The colour of every entry is the last colour the edges of its language
    carried, in the order the repositories and their edges are visited; an
    absent or empty colour does not count, and a language that never
    carried one is grey. *)
Theorem language_color_is_last_seen repos lang :
  lang ∈ calculate_language_stats repos →
  Lang.color lang = last_colour repos (Lang.name lang).
Proof.
  intros (item & -> & Hin)%elem_of_calculate_language_stats.
  destruct item as [name data]. simpl.
  rewrite collect_lang_sizes_flat in Hin. by apply foldl_add_to_color.
Qed.

Lemma language_color_is_last_seen_witness :
  Lang.color <$> calculate_language_stats color_repos = ["#3572A5"; "#858585"] ∧
  last_colour color_repos "Python" = "#3572A5" ∧
  last_colour color_repos "Go" = "#858585".
Proof.
  assert (calculate_language_stats color_repos
          = [Lang.Mk "Python" (round2 (pct 31 36)) "#3572A5";
             Lang.Mk "Go" (round2 (pct 5 36)) "#858585"]) as Hlangs
    by (vm_compute; reflexivity).
  split; [by rewrite Hlangs|]. split.
  - symmetry.
    apply (language_color_is_last_seen color_repos
             (Lang.Mk "Python" (round2 (pct 31 36)) "#3572A5")).
    rewrite Hlangs. left.
  - symmetry.
    apply (language_color_is_last_seen color_repos
             (Lang.Mk "Go" (round2 (pct 5 36)) "#858585")).
    rewrite Hlangs. right. left.
Defined.

(** ** Rank scorer: monotonicity *)

Lemma tier_rank_mono (s1 s2 : Z) : s1 ≤ s2 → tier (rank s1) ≤ tier (rank s2).
Proof.
  intros Hle. unfold rank.
  repeat case_decide; try lia; vm_compute; discriminate.
Qed.

(** Raising any of the five counters never lowers the grade. *)
Theorem rank_is_monotone c1 p1 i1 r1 s1 c2 p2 i2 r2 s2 :
  c1 ≤ c2 → p1 ≤ p2 → i1 ≤ i2 → r1 ≤ r2 → s1 ≤ s2 →
  tier (rank (score c1 p1 i1 r1 s1)) ≤ tier (rank (score c2 p2 i2 r2 s2)).
Proof.
  intros. apply tier_rank_mono. unfold score. lia.
Qed.

Lemma rank_is_monotone_witness :
  tier (rank (score 400 30 3 5 70)) ≤ tier (rank (score 5000 30 3 5 70)) ∧
  rank (score 400 30 3 5 70) = "B+" ∧ rank (score 5000 30 3 5 70) = "S".
Proof.
  split; [|split; reflexivity].
  apply (rank_is_monotone 400 30 3 5 70 5000 30 3 5 70); lia.
Defined.

(** ** Number formatting: [format_comma] *)

Lemma pretty_N_char_no_comma (x : N) : pretty_N_char x ≠ ","%char.
Proof. unfold pretty_N_char. by repeat case_match. Qed.

Lemma pretty_N_go_no_comma (x : N) (s : string) :
  Forall (λ c, c ≠ ","%char) (list_ascii_of_string s) →
  Forall (λ c, c ≠ ","%char) (list_ascii_of_string (pretty_N_go x s)).
Proof.
  revert s. induction (N.lt_wf_0 x) as [x _ IH]; intros s Hs.
  assert (x = 0 ∨ 0 < x)%N as [->|Hpos] by lia.
  - by rewrite pretty_N_go_0.
  - rewrite pretty_N_go_step by done. apply IH.
    + by apply N.div_lt.
    + simpl. constructor; [apply pretty_N_char_no_comma|done].
Qed.

Lemma pretty_N_no_comma (x : N) :
  Forall (λ c, c ≠ ","%char) (list_ascii_of_string (pretty x)).
Proof.
  unfold pretty, pretty_N. case_decide.
  - repeat constructor. discriminate.
  - apply pretty_N_go_no_comma. constructor.
Qed.

Lemma pretty_Z_abs_no_comma (n : Z) :
  Forall (λ c, c ≠ ","%char) (list_ascii_of_string (pretty (Z.abs n))).
Proof.
  destruct n as [|p|p]; simpl.
  - repeat constructor. discriminate.
  - apply (pretty_N_no_comma (N.pos p)).
  - apply (pretty_N_no_comma (N.pos p)).
Qed.

Lemma group3_strip (l : list ascii) (room : nat) :
  Forall (λ c, c ≠ ","%char) l →
  filter (λ c, c ≠ ","%char) (group3 l room) = l.
Proof.
  intros Hl. revert room. induction Hl as [|c l Hc _ IH]; intros room; [done|].
  destruct room as [|room]; simpl.
  - rewrite filter_cons_False by (intros H; by apply H).
    rewrite filter_cons_True by done. by rewrite IH.
  - rewrite filter_cons_True by done. by rewrite IH.
Qed.

Lemma strip_commas_grouped (digits : list ascii) :
  Forall (λ c, c ≠ ","%char) digits →
  strip_commas (string_of_list_ascii (reverse (group3 (reverse digits) 3)))
  = string_of_list_ascii digits.
Proof.
  intros Hd. unfold strip_commas.
  rewrite list_ascii_of_string_of_list_ascii, filter_reverse, group3_strip.
  - by rewrite reverse_involutive.
  - by apply Forall_reverse.
Qed.

Lemma strip_commas_dash (s : string) :
  strip_commas ("-" +:+ s) = "-" +:+ strip_commas s.
Proof. reflexivity. Qed.

(** Reading [format_comma n] without its commas gives back the decimal
    text of [n]: the separators are added to the digits, never replace or
    reorder them. *)
Theorem format_comma_strip (n : Z) : strip_commas (format_comma n) = str n.
Proof.
  unfold format_comma, str.
  pose proof (strip_commas_grouped _ (pretty_Z_abs_no_comma n)) as Hg.
  rewrite string_of_list_ascii_of_string in Hg.
  case_decide as Hn.
  - destruct n as [|p|p]; try lia.
    change (pretty (Z.neg p)) with ("-" +:+ pretty (Z.abs (Z.neg p))).
    rewrite <- Hg at 2. by rewrite strip_commas_dash.
  - rewrite Hg. by replace (Z.abs n) with n by lia.
Qed.

Lemma group3_commas (l : list ascii) (room i : nat) (c : ascii) :
  Forall (λ c, c ≠ ","%char) l → (room ≤ 3)%nat →
  group3 l room !! i = Some c →
  (c = ","%char ↔ (i `mod` 4 = room)%nat).
Proof.
  intros Hl. revert room i. induction Hl as [|d l Hd _ IH]; intros room i Hroom Hi.
  - simpl in Hi. by rewrite lookup_nil in Hi.
  - destruct room as [|room]; simpl in Hi.
    + destruct i as [|[|i]]; simpl in Hi.
      * injection Hi as <-. done.
      * injection Hi as <-. split; [done|]. intros H. by compute in H.
      * rewrite (IH 2%nat i) by (done || lia).
        replace (S (S i)) with (i + 2)%nat by lia.
        pose proof (Nat.mod_upper_bound i 4). pose proof (Nat.mod_upper_bound (i + 2) 4).
        rewrite (Nat.Div0.add_mod i 2 4). 
        destruct (i `mod` 4)%nat as [|[|[|[|?]]]]; simpl; lia.
    + destruct i as [|i]; simpl in Hi.
      * injection Hi as <-. split; [done|]. intros H. by compute in H.
      * rewrite (IH room i) by (done || lia).
        replace (S i) with (i + 1)%nat by lia.
        pose proof (Nat.mod_upper_bound i 4).
        rewrite (Nat.Div0.add_mod i 1 4).
        destruct (i `mod` 4)%nat as [|[|[|[|?]]]]; simpl; lia.
Qed.

(** For a non-negative number, counting characters from the right (first
    character 0), the commas of [format_comma n] stand exactly at the places
    3, 7, 11, ...: every group is three digits long. *)
Theorem format_comma_groups_of_three (n : Z) (i : nat) (c : ascii) :
  0 ≤ n →
  reverse (list_ascii_of_string (format_comma n)) !! i = Some c →
  (c = ","%char ↔ (i `mod` 4 = 3)%nat).
Proof.
  intros Hn. unfold format_comma. rewrite decide_False by lia.
  rewrite list_ascii_of_string_of_list_ascii, reverse_involutive.
  apply group3_commas; [|lia].
  apply Forall_reverse, pretty_Z_abs_no_comma.
Qed.

Lemma format_comma_groups_of_three_witness :
  format_comma 1234567 = "1,234,567" ∧
  (","%char = ","%char ↔ (3 `mod` 4 = 3)%nat) ∧
  ("4"%char = ","%char ↔ (4 `mod` 4 = 3)%nat).
Proof.
  split; [reflexivity|]. split.
  - apply (format_comma_groups_of_three 1234567 3 ","%char); [lia|reflexivity].
  - apply (format_comma_groups_of_three 1234567 4 "4"%char); [lia|reflexivity].
Defined.
